(** * ThreadPool.h: an interleaving model of the pool and its proofs

    The header defines a class with five members (the worker threads, the
    task queue, one mutex, one condition variable and the stop flag) and
    three pieces of code: the worker loop started by the constructor,
    [enqueue], and the destructor.  The model below gives every thread a
    program counter that names the source line it is about to execute,
    keeps the shared members in one record, and runs one statement of one
    thread per step.  Which thread moves next is left completely free, and
    so is the moment at which a thread enters [enqueue] or the owner
    enters the destructor.

    User callables are total functions on a world they may read and
    write; they do not call back into the pool.  [std::packaged_task],
    [std::future], [std::mutex] and [std::condition_variable] follow the
    C++ standard: a packaged task stores the value or the exception of
    its callable, a mutex has at most one holder, a waiting thread wakes
    when notified or spuriously. *)

From stdpp Require Import base list strings pretty.
From Stdlib Require Import ZArith Lia.

Set Default Proof Using "Type".
Open Scope Z_scope.
Open Scope nat_scope.

(** * Part I: the model *)

(** ** User callables and packaged tasks *)

(** State that user callables may read and write (for instance a shared
    vector they append to). *)
Definition World := list Z.

(** What running a callable produces: a value, or a thrown exception. *)
Inductive outcome :=
| Returned (v : Z)
| Threw (e : string).

(** [std::bind(f, args...)]: a nullary callable. *)
Definition callable := World -> World * outcome.

(** Shared state between a [std::packaged_task] and its [std::future]. *)
Inductive shared_state :=
| Pending
| HasValue (v : Z)
| HasException (e : string).

(** The object behind [std::make_shared<std::packaged_task<return_type()>>]
    (l.133): the bound callable and the shared state read by the future. *)
Record packaged_task := PackagedTask {
  fn : callable;
  result : shared_state
}.

Definition store (o : outcome) : shared_state :=
  match o with
  | Returned v => HasValue v
  | Threw e => HasException e
  end.

(** [std::packaged_task::operator()]: runs the callable and stores its
    value or the exception it threw in the shared state.  On a task whose
    shared state is already satisfied it throws [std::future_error] itself
    ([None] here). *)
Definition invoke (pt : packaged_task) (w : World) : option (packaged_task * World) :=
  match result pt with
  | Pending =>
      let '(w', o) := fn pt w in
      Some (PackagedTask (fn pt) (store o), w')
  | _ => None
  end.

(** [std::future::get]: [None] while it would block, otherwise the stored
    value or the rethrown exception. *)
Definition future_get (pt : packaged_task) : option outcome :=
  match result pt with
  | Pending => None
  | HasValue v => Some (Returned v)
  | HasException e => Some (Threw e)
  end.

(** Exceptions thrown by the pool's own code.  The header has exactly one
    [throw] statement (l.146). *)
Inductive exception :=
| runtime_error (what : string).

(** ** Threads and their program counters *)

Inductive tid :=
| Owner
| Worker (i : nat)
| Caller (j : nat).

Global Instance tid_eq_dec : EqDecision tid.
Proof. solve_decision. Defined.

(** The queue stores lambdas that capture [task] and call the packaged
    task it points to (l.150).  Such a lambda is determined by the
    [shared_ptr] it captures, which is the index of the packaged task in
    the heap. *)
Definition work_item := nat.

(** Control points of the worker lambda (l.77-109). *)
Inductive wpc :=
| WLock                      (* l.88: about to lock queue_mutex *)
| WWait                      (* l.93: mutex held, evaluating the wait predicate *)
| WBlocked                   (* inside condition.wait, mutex released *)
| WNotified                  (* woken up, about to re-lock the mutex *)
| WCheck                     (* l.97: mutex held, wait has completed *)
| WTake                      (* l.101-102: mutex held *)
| WUnlock (t : work_item)    (* l.103: end of the scope, mutex held *)
| WCall (t : work_item)      (* l.107: task() *)
| WDone                      (* returned at l.98 *)
| WFault.                    (* undefined behaviour or std::terminate *)

(** Control points of one activation of [enqueue] (l.125-158). *)
Inductive cpc :=
| CLock                      (* l.142: task and future built, about to lock *)
| CCheck                     (* l.145: mutex held *)
| CEmplace                   (* l.150: mutex held *)
| CUnlock                    (* l.151: end of the scope, mutex held *)
| CNotify                    (* l.154 *)
| CReturned (r : exception + nat).  (* threw, or returned the future *)

(** Control points of the thread that owns the pool. *)
Inductive opc :=
| OLive                      (* constructed, destructor not entered *)
| DStop                      (* l.174: mutex held *)
| DUnlock                    (* l.175: end of the scope, mutex held *)
| DNotify                    (* l.178 *)
| DJoin (k : nat)            (* l.181-182: about to join workers[k] *)
| DDone.                     (* destructor returned *)

Global Instance exception_eq_dec : EqDecision exception.
Proof. solve_decision. Defined.
Global Instance wpc_eq_dec : EqDecision wpc.
Proof. solve_decision. Defined.
Global Instance cpc_eq_dec : EqDecision cpc.
Proof. solve_decision. Defined.
Global Instance opc_eq_dec : EqDecision opc.
Proof. solve_decision. Defined.

(** History of the queue and of task execution (ghost state). *)
Inductive event :=
| Enq (t : work_item)                  (* l.150 committed *)
| Deq (i : nat) (t : work_item)        (* l.101-102 by worker i *)
| Ran (i : nat) (t : work_item) (w : World).  (* l.107 by worker i, from world w *)

(** ** Machine state *)

Record system := System {
  (* members of class ThreadPool *)
  workers : list wpc;
  tasks : list work_item;          (* front of the queue = head of the list *)
  queue_mutex : option tid;        (* who holds the mutex *)
  stop : bool;
  (* the rest of the program *)
  owner : opc;
  calls : list cpc;                (* activations of enqueue *)
  heap : list packaged_task;
  world : World;
  hist : list event
}.

Definition set_workers (x : list wpc) (s : system) : system :=
  System x (tasks s) (queue_mutex s) (stop s) (owner s) (calls s) (heap s) (world s) (hist s).
Definition set_tasks (x : list work_item) (s : system) : system :=
  System (workers s) x (queue_mutex s) (stop s) (owner s) (calls s) (heap s) (world s) (hist s).
Definition set_mutex (x : option tid) (s : system) : system :=
  System (workers s) (tasks s) x (stop s) (owner s) (calls s) (heap s) (world s) (hist s).
Definition set_stop (x : bool) (s : system) : system :=
  System (workers s) (tasks s) (queue_mutex s) x (owner s) (calls s) (heap s) (world s) (hist s).
Definition set_owner (x : opc) (s : system) : system :=
  System (workers s) (tasks s) (queue_mutex s) (stop s) x (calls s) (heap s) (world s) (hist s).
Definition set_calls (x : list cpc) (s : system) : system :=
  System (workers s) (tasks s) (queue_mutex s) (stop s) (owner s) x (heap s) (world s) (hist s).
Definition set_heap (x : list packaged_task) (s : system) : system :=
  System (workers s) (tasks s) (queue_mutex s) (stop s) (owner s) (calls s) x (world s) (hist s).
Definition set_world (x : World) (s : system) : system :=
  System (workers s) (tasks s) (queue_mutex s) (stop s) (owner s) (calls s) (heap s) x (hist s).
Definition log (e : event) (s : system) : system :=
  System (workers s) (tasks s) (queue_mutex s) (stop s) (owner s) (calls s) (heap s) (world s)
         (hist s ++ [e]).

Definition set_wpc (i : nat) (p : wpc) (s : system) : system :=
  set_workers (<[i := p]> (workers s)) s.
Definition set_cpc (j : nat) (p : cpc) (s : system) : system :=
  set_calls (<[j := p]> (calls s)) s.

(** [std::unique_lock] constructor: proceeds only when the mutex is free. *)
Definition acquire (t : tid) (s : system) : option system :=
  match queue_mutex s with
  | None => Some (set_mutex (Some t) s)
  | Some _ => None
  end.

Definition release (s : system) : system := set_mutex None s.

(** ** The constructor (l.70-111) *)

(** [stop(false)], then [threads] workers, each at the top of its loop. *)
Definition ThreadPool (threads : nat) : system :=
  System (replicate threads WLock) [] None false OLive [] [] [] [].

(** The constructor has no [throw] statement and never looks at its
    argument other than as the bound of the loop of l.73.  The one
    operation in it that can fail is [workers.emplace_back] (l.74):
    [std::thread] throws [system_error] when no thread can be started,
    and the vector throws [bad_alloc] or [length_error] when it cannot
    grow.  Whether the [i]-th [emplace_back] goes through is up to the
    machine; it is a parameter of the construction. *)
Definition spawner := nat -> bool.

(** How a construction can fail.  An exception of the first
    [emplace_back] reaches the caller.  A later one unwinds a constructor
    whose workers already run: the mutex and the condition variable are
    destroyed under them, and destroying a joinable [std::thread] calls
    [std::terminate]. *)
Inductive construct_error :=
| emplace_failed             (* the exception of [emplace_back] reaches the caller *)
| construct_fault.           (* undefined behaviour or std::terminate *)

(** l.73-75: [n] turns are left, the next worker has index [i], and [ws]
    are the workers started so far. *)
Fixpoint construct_loop (spawn : spawner) (n i : nat) (ws : list wpc)
    : construct_error + list wpc :=
  match n with
  | 0 => inr ws
  | S n' =>
      if spawn i then construct_loop spawn n' (S i) (ws ++ [WLock])
      else inl (match ws with [] => emplace_failed | _ => construct_fault end)
  end.

(** [ThreadPool(threads)].  The argument is a [size_t]; a count the
    machine cannot serve fails at some [emplace_back]. *)
Definition construct (spawn : spawner) (threads : nat) : construct_error + system :=
  match construct_loop spawn threads 0 [] with
  | inl e => inl e
  | inr ws => inr (System ws [] None false OLive [] [] [] [])
  end.

(** ** The worker loop (l.80-108) *)

(** The predicate given to [condition.wait] (l.94). *)
Definition wait_pred (s : system) : bool :=
  stop s || negb (bool_decide (tasks s = [])).

(** The exit test (l.97). *)
Definition exit_test (s : system) : bool :=
  stop s && bool_decide (tasks s = []).

Definition worker_step (i : nat) (s : system) : option system :=
  match workers s !! i with
  | Some WLock => set_wpc i WWait <$> acquire (Worker i) s
  | Some WWait =>
      if wait_pred s then Some (set_wpc i WCheck s)
      else Some (set_wpc i WBlocked (release s))
  | Some WNotified => set_wpc i WWait <$> acquire (Worker i) s
  | Some WCheck =>
      if exit_test s then Some (set_wpc i WDone (release s))
      else Some (set_wpc i WTake s)
  | Some WTake =>
      match tasks s with
      | t :: q => Some (set_wpc i (WUnlock t) (log (Deq i t) (set_tasks q s)))
      | [] => Some (set_wpc i WFault (release s))   (* front() of an empty queue *)
      end
  | Some (WUnlock t) => Some (set_wpc i (WCall t) (release s))
  | Some (WCall t) =>
      match heap s !! t with
      | Some pt =>
          match invoke pt (world s) with
          | Some (pt', w') =>
              Some (set_wpc i WLock
                      (log (Ran i t (world s))
                         (set_world w' (set_heap (<[t := pt']> (heap s)) s))))
          | None => Some (set_wpc i WFault s)
          end
      | None => Some (set_wpc i WFault s)
      end
  | Some WBlocked | Some WDone | Some WFault | None => None
  end.

(** ** The condition variable *)

(** A blocked worker leaves [condition.wait] when it is notified, or
    spuriously. *)
Definition wake (p : wpc) : wpc :=
  match p with
  | WBlocked => WNotified
  | _ => p
  end.

Definition wake_worker (i : nat) (s : system) : option system :=
  match workers s !! i with
  | Some WBlocked => Some (set_wpc i WNotified s)
  | _ => None
  end.

Definition blocked (p : wpc) : bool :=
  match p with
  | WBlocked => true
  | _ => false
  end.

(** [condition.notify_one()]: wakes one of the blocked workers, any of
    them; does nothing when none is blocked. *)
Definition notify_one (k : option nat) (s : system) : option system :=
  match k with
  | Some i => wake_worker i s
  | None => if existsb blocked (workers s) then None else Some s
  end.

(** [condition.notify_all()]. *)
Definition notify_all (s : system) : system :=
  set_workers (wake <$> workers s) s.

(** ** enqueue (l.125-158) *)

Definition stopped_msg : string := "enqueue on stopped ThreadPool".

(** l.133-138: allocate the packaged task and take its future. *)
Definition enqueue_begin (f : callable) (s : system) : system :=
  set_calls (calls s ++ [CLock]) (set_heap (heap s ++ [PackagedTask f Pending]) s).

(** l.142-151.  The throw of l.146 unwinds the call: the mutex is
    released, and [task] and [res] go with the frame.  The heap keeps the
    cell of such a call as a record of what was allocated; the program
    has no way to it any more. *)
Definition enqueue_step (j : nat) (s : system) : option system :=
  match calls s !! j with
  | Some CLock => set_cpc j CCheck <$> acquire (Caller j) s
  | Some CCheck =>
      if stop s
      then Some (set_cpc j (CReturned (inl (runtime_error stopped_msg))) (release s))
      else Some (set_cpc j CEmplace s)
  | Some CEmplace =>
      Some (set_cpc j CUnlock (log (Enq j) (set_tasks (tasks s ++ [j]) s)))
  | Some CUnlock => Some (set_cpc j CNotify (release s))
  | Some CNotify | Some (CReturned _) | None => None
  end.

Definition enqueue_notify (j : nat) (k : option nat) (s : system) : option system :=
  match calls s !! j with
  | Some CNotify => set_cpc j (CReturned (inr j)) <$> notify_one k s
  | _ => None
  end.

(** ** The destructor (l.169-183) *)

(** The body of the destructor, up to its return.  The destruction of
    the members that follows it is not modelled. *)
Definition destructor_step (s : system) : option system :=
  match owner s with
  | OLive => set_owner DStop <$> acquire Owner s
  | DStop => Some (set_owner DUnlock (set_stop true s))
  | DUnlock => Some (set_owner DNotify (release s))
  | DNotify => Some (set_owner (DJoin 0) (notify_all s))
  | DJoin k =>
      match workers s !! k with
      | Some WDone => Some (set_owner (DJoin (S k)) s)
      | Some _ => None
      | None => Some (set_owner DDone s)
      end
  | DDone => None
  end.

(** ** Interleavings *)

Inductive action :=
| Submit (f : callable)            (* a thread enters enqueue(f) *)
| Call (j : nat)                   (* activation j of enqueue runs a statement *)
| Notify (j : nat) (k : option nat) (* activation j runs notify_one, waking k *)
| Work (i : nat)                   (* worker i runs a statement *)
| Spurious (i : nat)               (* worker i wakes up spuriously *)
| Own.                             (* the owner runs a statement of the destructor *)

Definition exec (a : action) (s : system) : option system :=
  match a with
  | Submit f => Some (enqueue_begin f s)
  | Call j => enqueue_step j s
  | Notify j k => enqueue_notify j k s
  | Work i => worker_step i s
  | Spurious i => wake_worker i s
  | Own => destructor_step s
  end.

Fixpoint run (acts : list action) (s : system) : option system :=
  match acts with
  | [] => Some s
  | a :: acts' =>
      match exec a s with
      | Some s' => run acts' s'
      | None => None
      end
  end.

(** States the pool can be in, for a given number of worker threads. *)
Inductive reachable (threads : nat) : system -> Prop :=
| reach_init : reachable threads (ThreadPool threads)
| reach_step a s s' :
    reachable threads s -> exec a s = Some s' -> reachable threads s'.

(** ** Invariants *)

(** *** Mutual exclusion *)

Definition in_cs_w (p : wpc) : bool :=
  match p with
  | WWait | WCheck | WTake | WUnlock _ => true
  | _ => false
  end.

Definition in_cs_c (p : cpc) : bool :=
  match p with
  | CCheck | CEmplace | CUnlock => true
  | _ => false
  end.

Definition in_cs_o (p : opc) : bool :=
  match p with
  | DStop | DUnlock => true
  | _ => false
  end.

(** Thread [t] is at a control point between a lock and its unlock. *)
Definition holds (s : system) (t : tid) : bool :=
  match t with
  | Owner => in_cs_o (owner s)
  | Worker i => from_option in_cs_w false (workers s !! i)
  | Caller j => from_option in_cs_c false (calls s !! j)
  end.

Definition mutex_inv (s : system) : Prop :=
  forall t, holds s t = true <-> queue_mutex s = Some t.

(** The thread that performs an action. *)
Definition actor (a : action) (s : system) : tid :=
  match a with
  | Submit _ => Caller (length (calls s))
  | Call j | Notify j _ => Caller j
  | Work i | Spurious i => Worker i
  | Own => Owner
  end.

(** *** The stop flag follows the destructor *)

Definition stopped (p : opc) : bool :=
  match p with
  | OLive | DStop => false
  | _ => true
  end.

Definition stop_inv (s : system) : Prop := stop s = stopped (owner s).

(** *** What the mutex protects *)

(** Facts that hold while a thread is inside its critical section,
    because nobody else can write [tasks] or [stop] meanwhile. *)
Record cs_inv (s : system) : Prop := {
  cs_emplace j p :
    calls s !! j = Some p -> p = CEmplace \/ p = CUnlock -> stop s = false;
  cs_check i : workers s !! i = Some WCheck -> wait_pred s = true;
  cs_take i : workers s !! i = Some WTake -> tasks s ≠ []
}.

(** A worker that has returned saw the flag raised and the queue empty,
    and both stay that way. *)
Definition done_inv (s : system) : Prop :=
  forall i, workers s !! i = Some WDone -> stop s = true /\ tasks s = [].

(** Progress of the join loop: the workers already joined had returned. *)
Record join_inv (s : system) : Prop := {
  join_some k i : owner s = DJoin k -> i < k -> workers s !! i = Some WDone;
  join_all i : owner s = DDone -> i < length (workers s) -> workers s !! i = Some WDone
}.

(** *** Histories *)

Definition enq_of (e : event) : option work_item :=
  match e with Enq t => Some t | _ => None end.
Definition deq_of (e : event) : option work_item :=
  match e with Deq _ t => Some t | _ => None end.
Definition ran_of (e : event) : option work_item :=
  match e with Ran _ t _ => Some t | _ => None end.

(** Work items in the order they were put in the queue, taken out of it,
    and called. *)
Definition enqs (h : list event) : list work_item := omap enq_of h.
Definition deqs (h : list event) : list work_item := omap deq_of h.
Definition runs (h : list event) : list work_item := omap ran_of h.

(** The work item a worker has moved out of the queue and not yet run. *)
Definition held (p : wpc) : list work_item :=
  match p with
  | WUnlock t | WCall t => [t]
  | _ => []
  end.

Definition inflight (s : system) : list work_item := workers s ≫= held.

Record hist_inv (s : system) : Prop := {
  hist_fifo : enqs (hist s) = deqs (hist s) ++ tasks s;
  hist_flow : deqs (hist s) ≡ₚ runs (hist s) ++ inflight s
}.

(** The packaged task a worker is about to call exists and has not been
    called before. *)
Definition call_ok (s : system) : Prop :=
  forall i t, workers s !! i = Some (WCall t) ->
    exists pt, heap s !! t = Some pt /\ result pt = Pending.

(** *** Committed calls *)

(** Control points of [enqueue] after l.150. *)
Definition committed (p : cpc) : bool :=
  match p with
  | CUnlock | CNotify | CReturned (inr _) => true
  | _ => false
  end.

Definition is_committed (s : system) (j : nat) : bool :=
  from_option committed false (calls s !! j).

Record commit_inv (s : system) : Prop := {
  commit_enq j : j ∈ enqs (hist s) <-> is_committed s j = true;
  commit_nodup : NoDup (enqs (hist s));
  commit_ret j h : calls s !! j = Some (CReturned (inr h)) -> h = j;
  commit_heap : length (heap s) = length (calls s)
}.

(** *** The heap of packaged tasks *)

Record heap_inv (s : system) : Prop := {
  heap_pending t pt :
    heap s !! t = Some pt -> (result pt = Pending <-> t ∉ runs (hist s));
  heap_value t pt :
    heap s !! t = Some pt -> result pt ≠ Pending ->
    exists i w, Ran i t w ∈ hist s /\ result pt = store (fn pt w).2
}.

Definition no_fault (s : system) : Prop :=
  forall i, workers s !! i ≠ Some WFault.

(** *** No lost wake-up *)

Definition notified_all (p : opc) : bool :=
  match p with
  | DJoin _ | DDone => true
  | _ => false
  end.

(** After [notify_all] no worker is left inside [condition.wait]. *)
Definition wake_inv (s : system) : Prop :=
  notified_all (owner s) = true -> forall i, workers s !! i ≠ Some WBlocked.

(** *** One worker: tasks run in the order they are taken *)

Definition solo_inv (s : system) : Prop :=
  length (workers s) = 1 -> deqs (hist s) = runs (hist s) ++ inflight s.

(** *** All invariants together *)

Record inv (threads : nat) (s : system) : Prop := {
  inv_size : length (workers s) = threads;
  inv_mutex : mutex_inv s;
  inv_stop : stop_inv s;
  inv_cs : cs_inv s;
  inv_done : done_inv s;
  inv_join : join_inv s;
  inv_wake : wake_inv s;
  inv_hist : hist_inv s;
  inv_solo : solo_inv s;
  inv_commit : commit_inv s;
  inv_heap : heap_inv s;
  inv_fault : no_fault s
}.

(** ** Schedules *)

Definition boom : callable := fun w => (w, Threw "boom").
Definition seven : callable := fun w => (w, Returned 7%Z).
Definition push (n : Z) : callable := fun w => (w ++ [n], Returned n).

Definition enqueue_solo (f : callable) (j : nat) (k : option nat) : list action :=
  [Submit f; Call j; Call j; Call j; Call j; Notify j k].
Definition destructor_entry : list action := [Own; Own; Own; Own].
Definition worker_fetch (i : nat) : list action :=
  [Work i; Work i; Work i; Work i; Work i].
Definition worker_round (i : nat) : list action := worker_fetch i ++ [Work i].
Definition worker_exit (i : nat) : list action := [Work i; Work i; Work i].

Definition submit_two : list action :=
  enqueue_solo boom 0 None ++ enqueue_solo (push 5) 1 None.
Definition drain_one : list action :=
  worker_round 0 ++ worker_round 0 ++ worker_exit 0 ++ [Own; Own].
Definition scenario : list action :=
  submit_two ++ destructor_entry ++ drain_one.

(** The state after a schedule, from a fresh pool. *)
Definition after (threads : nat) (acts : list action) : system :=
  default (ThreadPool threads) (run acts (ThreadPool threads)).

(** Control points of a call that was made on a stopped pool. *)
Definition rejected (p : cpc) : bool :=
  match p with
  | CLock | CCheck => true
  | CReturned (inl (runtime_error m)) => bool_decide (m = stopped_msg)
  | _ => false
  end.

Definition fulfil (pt : packaged_task) (w : World) : packaged_task :=
  PackagedTask (fn pt) (store (fn pt w).2).

(** How many times the callable of work item [t] has been invoked. *)
Definition invocations (s : system) (t : work_item) : nat :=
  count_occ Nat.eq_dec (runs (hist s)) t.

(** ** Measures for the progress proof *)

Definition is_spurious (a : action) : bool :=
  match a with
  | Spurious _ => true
  | _ => false
  end.

(** Schedules in which every wake-up comes from a notification. *)
Definition no_spurious (acts : list action) : Prop :=
  Forall (fun a => is_spurious a = false) acts.

(** How far a worker is from its next exit test. *)
Definition wrank (p : wpc) : nat :=
  match p with
  | WUnlock _ => 6
  | WCall _ => 5
  | WLock | WNotified => 4
  | WWait => 3
  | WCheck => 2
  | WTake => 1
  | WBlocked | WDone | WFault => 0
  end.

(** How far a call of [enqueue] is from releasing the mutex. *)
Definition crank (p : cpc) : nat :=
  match p with
  | CCheck => 9
  | CEmplace => 8
  | CUnlock => 1
  | CLock | CNotify | CReturned _ => 0
  end.

(** Work left for the threads other than the owner. *)
Definition backlog (s : system) : nat :=
  6 * length (tasks s) + sum_list (wrank <$> workers s) + sum_list (crank <$> calls s).

(** Statements the owner still has to run. *)
Definition orank (s : system) : nat :=
  match owner s with
  | OLive => length (workers s) + 5
  | DStop => length (workers s) + 4
  | DUnlock => length (workers s) + 3
  | DNotify => length (workers s) + 2
  | DJoin k => length (workers s) - k + 1
  | DDone => 0
  end.

(** The blocked worker with the lowest index, if any. *)
Fixpoint first_blocked (l : list wpc) : option nat :=
  match l with
  | [] => None
  | p :: l' => if blocked p then Some 0 else S <$> first_blocked l'
  end.

(** The worker table after [notify_one] has woken worker [k]. *)
Definition woken (k : option nat) (l : list wpc) : list wpc :=
  match k with
  | Some i => <[i := WNotified]> l
  | None => l
  end.

(** ** Serving the queue while the pool is alive *)

(** A worker that will look at the queue again without being woken. *)
Definition awake (p : wpc) : bool :=
  match p with
  | WBlocked | WDone | WFault => false
  | _ => true
  end.

(** A call of [enqueue] that has put its item in the queue and has not
    yet run [notify_one] (l.151-154). *)
Definition notifying (p : cpc) : bool :=
  match p with
  | CUnlock | CNotify => true
  | _ => false
  end.

(** Somebody will serve the queue: a worker is awake, or a notification
    is on its way. *)
Definition attended (s : system) : bool :=
  existsb awake (workers s) || existsb notifying (calls s).

Definition attended_inv (s : system) : Prop :=
  tasks s ≠ [] -> attended s = true.

(** ** Measures for serving the queue while the pool is alive *)

(** As [crank], with room for the worker that [notify_one] wakes. *)
Definition crank_live (p : cpc) : nat :=
  match p with
  | CCheck => 14
  | CEmplace => 13
  | CUnlock => 6
  | CNotify => 5
  | CLock | CReturned _ => 0
  end.

Definition backlog_live (s : system) : nat :=
  6 * length (tasks s) + sum_list (wrank <$> workers s) +
  sum_list (crank_live <$> calls s).

(** Statements of the workers and of calls already made: no new call, no
    destructor, no spurious wake-up. *)
Definition is_service (a : action) : bool :=
  match a with
  | Work _ | Call _ | Notify _ _ => true
  | Submit _ | Spurious _ | Own => false
  end.

Definition at_notify (p : cpc) : bool :=
  match p with
  | CNotify => true
  | _ => false
  end.

Definition at_call (p : wpc) : bool :=
  match p with
  | WCall _ => true
  | _ => false
  end.

(** Both workers of a pool of two go to sleep on the empty queue, then
    two calls of [enqueue] wake one each. *)
Definition both_asleep : list action :=
  [Work 0; Work 0; Work 1; Work 1] ++
  enqueue_solo boom 0 (Some 0) ++ enqueue_solo (push 5) 1 (Some 1).

(** ** Order of events *)

(** What must have happened before an event. *)
Definition preceded (h : list event) (e : event) : Prop :=
  match e with
  | Enq _ => True
  | Deq _ t => Enq t ∈ h
  | Ran i t _ => Deq i t ∈ h
  end.

(** Every event of a history comes after the event it depends on. *)
Definition causal (h : list event) : Prop :=
  forall h1 e h2, h = h1 ++ e :: h2 -> preceded h1 e.

Record order_inv (s : system) : Prop := {
  order_causal : causal (hist s);
  order_fetched i p t :
    workers s !! i = Some p -> p = WUnlock t \/ p = WCall t -> Deq i t ∈ hist s
}.

(** A call that threw did so at l.146. *)
Definition thrown_inv (s : system) : Prop :=
  forall j e, calls s !! j = Some (CReturned (inl e)) ->
    e = runtime_error stopped_msg /\ stop s = true.

(** * promise_future.cpp: one producer, one consumer *)

(** [main] creates a promise and its future, starts a producer thread
    that computes a result and fulfils the promise, waits for the result,
    prints it and joins the producer.  Each [<<] on [std::cout] is taken
    as one write; [sleep_for] only passes time. *)
Module PromiseFuture.

Inductive thread :=
| Main
| Producer.

Global Instance thread_eq_dec : EqDecision thread.
Proof. solve_decision. Defined.

(** Control points of the producer lambda (l.14-23). *)
Inductive ppc :=
| PStart                   (* l.15 *)
| PSleep                   (* l.16 *)
| PCompute                 (* l.18 *)
| PReport (result : Z)     (* l.20, the text *)
| PReportValue (result : Z) (* l.20, << result *)
| PReportEnd (result : Z)  (* l.20, the newline *)
| PSet (result : Z)        (* l.21 *)
| PBye                     (* l.22 *)
| PExit                    (* the lambda has returned *)
| PFault.                  (* set_value threw: the promise was already satisfied *)

(** Control points of [main] (l.6-35). *)
Inductive mpc :=
| MSpawn                        (* l.14: promise and future exist *)
| MWait                         (* l.26 *)
| MGet                          (* l.29 *)
| MPrint (final_result : Z)     (* l.31, the text *)
| MPrintValue (final_result : Z) (* l.31, << final_result *)
| MPrintEnd (final_result : Z)  (* l.31, the newline *)
| MJoin                         (* l.33 *)
| MReturn (code : Z).           (* l.34 *)

Global Instance ppc_eq_dec : EqDecision ppc.
Proof. solve_decision. Defined.
Global Instance mpc_eq_dec : EqDecision mpc.
Proof. solve_decision. Defined.

Record state := State {
  promise : option Z;            (* shared state of result_promise / result_future *)
  producer : option ppc;         (* [None] until the thread is started *)
  main : mpc;
  cout : list (thread * string)  (* what was written, and by whom *)
}.

Definition nl : string := String (Ascii.ascii_of_nat 10) EmptyString.

Definition producer_start : string := "生产者: 开始计算..." +:+ nl.
Definition producer_report : string := "生产者: 计算完成，设置结果: ".
Definition producer_bye : string := "生产者: 承诺已履行，退出" +:+ nl.
Definition consumer_wait : string := "消费者: 等待结果..." +:+ nl.
Definition consumer_got : string := "消费者: 收到结果 = ".

(** [std::cout << x]. *)
Definition print (t : thread) (x : string) (s : state) : state :=
  State (promise s) (producer s) (main s) (cout s ++ [(t, x)]).

Definition set_producer (p : ppc) (s : state) : state :=
  State (promise s) (Some p) (main s) (cout s).
Definition set_main (p : mpc) (s : state) : state :=
  State (promise s) (producer s) p (cout s).
Definition set_promise (v : Z) (s : state) : state :=
  State (Some v) (producer s) (main s) (cout s).

(** l.8-11. *)
Definition start : state := State None None MSpawn [].

Definition producer_step (s : state) : option state :=
  match producer s with
  | Some PStart => Some (set_producer PSleep (print Producer producer_start s))
  | Some PSleep => Some (set_producer PCompute s)
  | Some PCompute => Some (set_producer (PReport 42) s)
  | Some (PReport r) => Some (set_producer (PReportValue r) (print Producer producer_report s))
  | Some (PReportValue r) => Some (set_producer (PReportEnd r) (print Producer (pretty r) s))
  | Some (PReportEnd r) => Some (set_producer (PSet r) (print Producer nl s))
  | Some (PSet r) =>
      match promise s with
      | None => Some (set_producer PBye (set_promise r s))
      | Some _ => Some (set_producer PFault s)
      end
  | Some PBye => Some (set_producer PExit (print Producer producer_bye s))
  | Some PExit | Some PFault | None => None
  end.

Definition main_step (s : state) : option state :=
  match main s with
  | MSpawn => Some (set_main MWait (set_producer PStart s))
  | MWait => Some (set_main MGet (print Main consumer_wait s))
  | MGet =>
      match promise s with
      | Some v => Some (set_main (MPrint v) s)
      | None => None                       (* get() blocks *)
      end
  | MPrint v => Some (set_main (MPrintValue v) (print Main consumer_got s))
  | MPrintValue v => Some (set_main (MPrintEnd v) (print Main (pretty v) s))
  | MPrintEnd v => Some (set_main MJoin (print Main nl s))
  | MJoin =>
      match producer s with
      | Some PExit => Some (set_main (MReturn 0) s)
      | _ => None                          (* join() blocks *)
      end
  | MReturn _ => None
  end.

Definition step (t : thread) (s : state) : option state :=
  match t with
  | Main => main_step s
  | Producer => producer_step s
  end.

Fixpoint run (ts : list thread) (s : state) : option state :=
  match ts with
  | [] => Some s
  | t :: ts' =>
      match step t s with
      | Some s' => run ts' s'
      | None => None
      end
  end.

(** Statements the two threads still have to execute. *)
Definition producer_left (p : option ppc) : nat :=
  match p with
  | None | Some PStart => 8
  | Some PSleep => 7
  | Some PCompute => 6
  | Some (PReport _) => 5
  | Some (PReportValue _) => 4
  | Some (PReportEnd _) => 3
  | Some (PSet _) => 2
  | Some PBye => 1
  | Some PExit | Some PFault => 0
  end.

Definition main_left (p : mpc) : nat :=
  match p with
  | MSpawn => 7
  | MWait => 6
  | MGet => 5
  | MPrint _ => 4
  | MPrintValue _ => 3
  | MPrintEnd _ => 2
  | MJoin => 1
  | MReturn _ => 0
  end.

Definition left (s : state) : nat := producer_left (producer s) + main_left (main s).

(** What the threads have written so far, each in its own order. *)
Definition producer_out (p : option ppc) : list string :=
  match p with
  | None | Some PStart => []
  | Some PSleep | Some PCompute | Some (PReport _) => [producer_start]
  | Some (PReportValue _) => [producer_start; producer_report]
  | Some (PReportEnd r) => [producer_start; producer_report; pretty r]
  | Some (PSet _) | Some PBye | Some PFault =>
      [producer_start; producer_report; pretty 42%Z; nl]
  | Some PExit => [producer_start; producer_report; pretty 42%Z; nl; producer_bye]
  end.

Definition main_out (p : mpc) : list string :=
  match p with
  | MSpawn | MWait => []
  | MGet | MPrint _ => [consumer_wait]
  | MPrintValue _ => [consumer_wait; consumer_got]
  | MPrintEnd v => [consumer_wait; consumer_got; pretty v]
  | MJoin | MReturn _ => [consumer_wait; consumer_got; pretty 42%Z; nl]
  end.

Definition written_by (t : thread) (out : list (thread * string)) : list string :=
  snd <$> filter (fun x => fst x = t) out.

(** The value a thread holds in its local variable, if it has one. *)
Definition producer_value (p : option ppc) : option Z :=
  match p with
  | Some (PReport r) | Some (PReportValue r) | Some (PReportEnd r) | Some (PSet r) => Some r
  | _ => None
  end.

Definition main_value (p : mpc) : option Z :=
  match p with
  | MPrint v | MPrintValue v | MPrintEnd v => Some v
  | _ => None
  end.

(** [main] is past [result_future.get()]. *)
Definition got (p : mpc) : bool :=
  match p with
  | MSpawn | MWait | MGet => false
  | _ => true
  end.

Definition report : list string := [producer_start; producer_report; pretty 42%Z; nl].

(** Whatever the consumer writes after its first line comes after the
    producer's report. *)
Definition report_first (out : list (thread * string)) : Prop :=
  forall l1 x l2, out = l1 ++ (Main, x) :: l2 -> x ≠ consumer_wait ->
    report `prefix_of` written_by Producer l1.

Definition promise_set (p : option ppc) : bool :=
  match p with
  | Some PBye | Some PExit => true
  | _ => false
  end.

Record inv (s : state) : Prop := {
  inv_started : producer s = None <-> main s = MSpawn;
  inv_no_fault : producer s ≠ Some PFault;
  inv_result r : producer_value (producer s) = Some r -> r = 42%Z;
  inv_final v : main_value (main s) = Some v -> v = 42%Z;
  inv_promise : promise s = if promise_set (producer s) then Some 42%Z else None;
  inv_got : got (main s) = true -> promise s = Some 42%Z;
  inv_code c : main s = MReturn c -> c = 0%Z /\ producer s = Some PExit;
  inv_producer_out : written_by Producer (cout s) = producer_out (producer s);
  inv_main_out : written_by Main (cout s) = main_out (main s);
  inv_order : report_first (cout s)
}.

End PromiseFuture.

(** One complete run of promise_future.cpp: fifteen steps. *)
Definition pf_schedule : list PromiseFuture.thread :=
  [PromiseFuture.Main; PromiseFuture.Main] ++
  replicate 7 PromiseFuture.Producer ++
  replicate 4 PromiseFuture.Main ++
  [PromiseFuture.Producer; PromiseFuture.Main].

(** * Part II: proofs *)

(** ** Runs *)

(** Several steps in a row. *)
Lemma run_app acts1 acts2 s :
  run (acts1 ++ acts2) s = run acts1 s ≫= run acts2.
Proof.
  revert s. induction acts1 as [|a acts1 IH]; intros s; simpl; [done|].
  destruct (exec a s); simpl; [apply IH | done].
Qed.

Lemma reachable_run threads acts s s' :
  reachable threads s -> run acts s = Some s' -> reachable threads s'.
Proof.
  revert s. induction acts as [|a acts IH]; simpl; intros s Hs Hr.
  - by simplify_eq.
  - destruct (exec a s) as [s1|] eqn:E; [|done].
    eapply IH; [|done]. by eapply reach_step.
Qed.

(** ** Case analysis on a step *)

Ltac unfold_step :=
  unfold exec, worker_step, enqueue_step, enqueue_notify, destructor_step,
    notify_one, wake_worker, acquire, enqueue_begin, notify_all, release,
    set_wpc, set_cpc in *.

(** Splits a hypothesis [exec a s = Some s'] into one goal per statement
    of the source, with the tests of that statement as hypotheses. *)
Ltac step_cases H :=
  match type of H with
  | exec ?a ?s = Some ?s' =>
      try (is_var a; destruct a); unfold_step; simpl in H;
      repeat case_match; simplify_eq/=
  end.

(** ** Mutual exclusion *)

Lemma mutex_inv_init threads : mutex_inv (ThreadPool threads).
Proof.
  intros [|i|j]; simpl; split; try done.
  destruct (replicate threads WLock !! i) eqn:E; [|done].
  apply lookup_replicate in E as [-> _]. done.
Qed.

Lemma lookup_insert_same {A} (l : list A) i x y :
  l !! i = Some x -> <[i := y]> l !! i = Some y.
Proof. intros H. apply list_lookup_insert_eq. by eapply lookup_lt_Some. Qed.

(** Rewrites with the program counters known from the case analysis. *)
Ltac use_lookups :=
  repeat match goal with
  | H : ?l !! ?i = Some _ |- context [<[?i := ?y]> ?l !! ?i] =>
      rewrite (lookup_insert_same l i _ y H)
  | H : ?l !! ?i = Some _ |- context [?l !! ?i] => rewrite H
  | H : owner ?s = _ |- context [owner ?s] => rewrite H
  end.

Lemma in_cs_w_insert_blocked (l : list wpc) n i :
  l !! n = Some WBlocked ->
  from_option in_cs_w false (<[n := WNotified]> l !! i) = from_option in_cs_w false (l !! i).
Proof.
  intros Hn. destruct (decide (n = i)) as [->|Hne].
  - by use_lookups.
  - by rewrite list_lookup_insert_ne.
Qed.

Lemma in_cs_w_wake (l : list wpc) i :
  from_option in_cs_w false ((wake <$> l) !! i) = from_option in_cs_w false (l !! i).
Proof. rewrite list_lookup_fmap. by destruct (l !! i) as [[]|]. Qed.

Lemma in_cs_c_snoc (l : list cpc) j :
  from_option in_cs_c false ((l ++ [CLock]) !! j) = from_option in_cs_c false (l !! j).
Proof.
  destruct (decide (j < length l)).
  - by rewrite lookup_app_l.
  - rewrite (lookup_ge_None_2 l j) by lia. rewrite lookup_app_r by lia.
    by destruct (j - length l) as [|[|?]].
Qed.

(** What one step does to the mutex: the acting thread takes it when it
    is free, gives it back, or leaves it alone; no other thread enters or
    leaves a critical section. *)
Lemma step_footprint a s s' :
  exec a s = Some s' ->
  let me := actor a s in
  (forall th, th ≠ me -> holds s' th = holds s th) /\
  ( (queue_mutex s = None /\ queue_mutex s' = Some me /\ holds s' me = true)
  \/ (holds s me = true /\ queue_mutex s' = None /\ holds s' me = false)
  \/ (queue_mutex s' = queue_mutex s /\ holds s' me = holds s me)).
Proof.
  intros H. step_cases H.
  all: split;
    [intros th Hth; destruct th as [|i'|j']; simpl in *; try done;
     rewrite ?list_lookup_insert_ne by congruence; try done;
     auto using in_cs_w_insert_blocked, in_cs_w_wake, in_cs_c_snoc|].
  all: use_lookups; simpl; auto.
  right; right. split; [done|]. apply in_cs_c_snoc.
Qed.

Lemma mutex_inv_step a s s' :
  mutex_inv s -> exec a s = Some s' -> mutex_inv s'.
Proof.
  intros Hm H. apply step_footprint in H as [Hother Hme].
  set (me := actor a s) in *. clearbody me.
  intros th. destruct (decide (th = me)) as [->|Hne].
  - pose proof (Hm me) as Hm'.
    destruct Hme as [(H1 & H2 & H3)|[(H1 & H2 & H3)|(H1 & H2)]].
    + by rewrite H2, H3.
    + rewrite H2, H3. done.
    + by rewrite H1, H2.
  - rewrite (Hother th Hne). pose proof (Hm th) as Hm'. pose proof (Hm me) as Hm''.
    destruct Hme as [(H1 & H2 & H3)|[(H1 & H2 & H3)|(H1 & H2)]].
    + rewrite H1 in Hm'. rewrite H2. split; [intros Hh; by apply Hm' in Hh | congruence].
    + apply Hm'' in H1. rewrite H1 in Hm'. rewrite H2.
      split; [intros Hh; apply Hm' in Hh; congruence | done].
    + by rewrite H1.
Qed.

(** ** The stop flag and the critical sections *)

(** Turns a lookup in an updated thread table into the cases it comes from. *)
Ltac inv_lookup :=
  repeat match goal with
  | H : <[_ := _]> _ !! _ = Some _ |- _ =>
      apply list_lookup_insert_Some in H as [(-> & ? & ?)|(? & H)]
  | H : (_ ++ [_]) !! _ = Some _ |- _ =>
      apply lookup_snoc_Some in H as [(? & H)|(? & ?)]
  | H : (wake <$> _) !! _ = Some _ |- _ =>
      apply list_lookup_fmap_Some in H as ([] & ? & H); simplify_eq/=
  end; simplify_eq/=.

Lemma stop_inv_step a s s' : stop_inv s -> exec a s = Some s' -> stop_inv s'.
Proof.
  unfold stop_inv. intros Hs H. step_cases H; use_lookups; simpl; congruence.
Qed.

Section exclusion.
Context (s : system) (Hm : mutex_inv s).

Lemma holder_unique t1 t2 :
  holds s t1 = true -> holds s t2 = true -> t1 = t2.
Proof using Hm. intros H1 H2. apply Hm in H1, H2. congruence. Qed.

Lemma excl_ww i1 p1 i2 p2 :
  workers s !! i1 = Some p1 -> in_cs_w p1 = true ->
  workers s !! i2 = Some p2 -> in_cs_w p2 = true -> i1 = i2.
Proof using Hm.
  intros H1 Hp1 H2 Hp2.
  assert (Worker i1 = Worker i2); [|congruence].
  apply holder_unique; simpl; by use_lookups.
Qed.

Lemma excl_cc j1 p1 j2 p2 :
  calls s !! j1 = Some p1 -> in_cs_c p1 = true ->
  calls s !! j2 = Some p2 -> in_cs_c p2 = true -> j1 = j2.
Proof using Hm.
  intros H1 Hp1 H2 Hp2.
  assert (Caller j1 = Caller j2); [|congruence].
  apply holder_unique; simpl; by use_lookups.
Qed.

Lemma excl_wc i p j q :
  workers s !! i = Some p -> in_cs_w p = true ->
  calls s !! j = Some q -> in_cs_c q = true -> False.
Proof using Hm.
  intros H1 Hp1 H2 Hp2.
  assert (Worker i = Caller j); [|congruence].
  apply holder_unique; simpl; by use_lookups.
Qed.

Lemma excl_wo i p q :
  workers s !! i = Some p -> in_cs_w p = true ->
  owner s = q -> in_cs_o q = true -> False.
Proof using Hm.
  intros H1 Hp1 H2 Hp2.
  assert (Worker i = Owner); [|congruence].
  apply holder_unique; simpl; by use_lookups.
Qed.

Lemma excl_co j p q :
  calls s !! j = Some p -> in_cs_c p = true ->
  owner s = q -> in_cs_o q = true -> False.
Proof using Hm.
  intros H1 Hp1 H2 Hp2.
  assert (Caller j = Owner); [|congruence].
  apply holder_unique; simpl; by use_lookups.
Qed.
End exclusion.

Ltac exclusion Hm :=
  exfalso;
  match goal with
  | H1 : workers ?s !! ?i = Some ?p, H2 : calls ?s !! ?j = Some ?q |- _ =>
      exact (excl_wc s Hm i p j q H1 eq_refl H2 eq_refl)
  | H1 : workers ?s !! ?i = Some ?p, H2 : owner ?s = ?q |- _ =>
      exact (excl_wo s Hm i p q H1 eq_refl H2 eq_refl)
  | H1 : calls ?s !! ?i = Some ?p, H2 : owner ?s = ?q |- _ =>
      exact (excl_co s Hm i p q H1 eq_refl H2 eq_refl)
  | H1 : workers ?s !! ?i1 = Some ?p1, H2 : workers ?s !! ?i2 = Some ?p2,
    Hne : ?i1 ≠ ?i2 |- _ =>
      exact (Hne (excl_ww s Hm i1 p1 i2 p2 H1 eq_refl H2 eq_refl))
  | H1 : calls ?s !! ?i1 = Some ?p1, H2 : calls ?s !! ?i2 = Some ?p2,
    Hne : ?i1 ≠ ?i2 |- _ =>
      exact (Hne (excl_cc s Hm i1 p1 i2 p2 H1 eq_refl H2 eq_refl))
  end.

Lemma wait_not_exit s : wait_pred s = true -> exit_test s = false -> tasks s ≠ [].
Proof.
  unfold wait_pred, exit_test. intros H1 H2 H3.
  rewrite bool_decide_eq_true_2 in H1, H2 by done. by destruct (stop s).
Qed.

Lemma cs_inv_init threads : cs_inv (ThreadPool threads).
Proof.
  split; simpl.
  - by intros j p ?.
  - intros i Hi. by apply lookup_replicate in Hi as [? _].
  - intros i Hi. by apply lookup_replicate in Hi as [? _].
Qed.

Lemma cs_inv_step a s s' :
  mutex_inv s -> cs_inv s -> exec a s = Some s' -> cs_inv s'.
Proof.
  intros Hm [He Hc Ht] H.
  split.
  - intros j p Hp Hor. step_cases H; inv_lookup; eauto.
    all: try by destruct Hor.
    all: destruct Hor; subst; exclusion Hm.
  - intros i Hi. step_cases H; inv_lookup; eauto.
    all: exclusion Hm.
  - intros i Hi. step_cases H; inv_lookup; eauto using wait_not_exit.
    all: exclusion Hm.
Qed.

Lemma exit_test_true s : exit_test s = true -> stop s = true /\ tasks s = [].
Proof.
  unfold exit_test. intros [H1 H2]%andb_true_iff.
  by apply bool_decide_eq_true in H2.
Qed.

Lemma done_inv_step a s s' :
  cs_inv s -> done_inv s -> exec a s = Some s' -> done_inv s'.
Proof.
  intros Hcs Hd H i Hi. step_cases H; inv_lookup; eauto using exit_test_true.
  - destruct (Hd i Hi) as [Hs _].
    by rewrite (cs_emplace s Hcs j CEmplace) in Hs by auto.
  - destruct (Hd i Hi) as [_ Hq]. congruence.
  - destruct (Hd i Hi) as [_ Hq]. done.
Qed.

(** ** The join loop *)

Lemma workers_length_step a s s' :
  exec a s = Some s' -> length (workers s') = length (workers s).
Proof.
  intros H. step_cases H; rewrite ?length_insert, ?length_fmap; done.
Qed.

Lemma done_stable a s s' i :
  exec a s = Some s' -> workers s !! i = Some WDone -> workers s' !! i = Some WDone.
Proof.
  intros H Hi. step_cases H; try done.
  all: try (rewrite list_lookup_insert_ne; [done|congruence]).
  by rewrite list_lookup_fmap, Hi.
Qed.

Lemma owner_frame a s s' :
  exec a s = Some s' -> actor a s ≠ Owner -> owner s' = owner s.
Proof. intros H Hne. by step_cases H. Qed.

Lemma join_inv_init threads : join_inv (ThreadPool threads).
Proof. by split. Qed.

Lemma join_inv_step a s s' :
  join_inv s -> exec a s = Some s' -> join_inv s'.
Proof.
  intros [Hj1 Hj2] H. split.
  - intros k i Hk Hi. destruct a.
    1-5: eapply done_stable; [done|]; apply (Hj1 k); [|done];
         by erewrite <- owner_frame.
    simpl in H. unfold destructor_step, acquire in H.
    repeat case_match; simplify_eq/=; try lia.
    destruct (decide (i = k0)) as [->|]; [done|]. eapply Hj1; [done|lia].
  - intros i Hk Hi. destruct a.
    1-5: eapply done_stable; [done|]; apply Hj2;
         [by erewrite <- owner_frame | by erewrite <- workers_length_step].
    simpl in H. unfold destructor_step, acquire in H.
    repeat case_match; simplify_eq/=.
    + apply (Hj1 k); [done|]. apply lookup_ge_None_1 in H1. lia.
Qed.

(** ** Histories *)

Lemma bind_insert_perm {A B} (f : A -> list B) (l : list A) i x y :
  l !! i = Some x -> (<[i := y]> l ≫= f) ++ f x ≡ₚ f y ++ (l ≫= f).
Proof.
  revert i. induction l as [|a l IH]; intros [|i] Hi; simplify_eq/=.
  - rewrite <- (assoc_L (++)). f_equiv. apply Permutation_app_comm.
  - rewrite <- (assoc_L (++)). rewrite (IH i Hi).
    rewrite !(assoc_L (++)). f_equiv. apply Permutation_app_comm.
Qed.

Lemma held_same (l : list wpc) i p q :
  l !! i = Some p -> held q = held p -> <[i := q]> l ≫= held ≡ₚ l ≫= held.
Proof.
  intros Hi Hq.
  pose proof (bind_insert_perm held l i p q Hi) as H.
  rewrite Hq in H. rewrite (comm (++) (held p)) in H.
  by apply (inj (.++ held p)) in H.
Qed.

Lemma held_take (l : list wpc) i p t :
  l !! i = Some p -> held p = [] ->
  <[i := WUnlock t]> l ≫= held ≡ₚ (l ≫= held) ++ [t].
Proof.
  intros Hi Hp.
  pose proof (bind_insert_perm held l i p (WUnlock t) Hi) as H.
  rewrite Hp, app_nil_r in H. rewrite H. simpl. apply Permutation_cons_append.
Qed.

Lemma held_ran (l : list wpc) i t q :
  l !! i = Some (WCall t) -> held q = [] ->
  l ≫= held ≡ₚ t :: (<[i := q]> l ≫= held).
Proof.
  intros Hi Hq.
  pose proof (bind_insert_perm held l i (WCall t) q Hi) as H.
  rewrite Hq in H. simpl in H. rewrite <- H. symmetry. apply Permutation_cons_append.
Qed.

Lemma held_wake l : (wake <$> l) ≫= held = l ≫= held.
Proof.
  induction l as [|p l IH]; [done|]. rewrite fmap_cons, !bind_cons, IH.
  by destruct p.
Qed.

Lemma invoke_pending pt w :
  result pt = Pending ->
  invoke pt w = Some (PackagedTask (fn pt) (store (fn pt w).2), (fn pt w).1).
Proof. unfold invoke. intros ->. by destruct (fn pt w). Qed.

Lemma invoke_Some pt w pt' w' :
  invoke pt w = Some (pt', w') ->
  result pt = Pending /\ pt' = PackagedTask (fn pt) (store (fn pt w).2) /\ w' = (fn pt w).1.
Proof.
  unfold invoke. destruct (result pt); [|done..]. destruct (fn pt w). naive_solver.
Qed.

Lemma hist_inv_step a s s' :
  call_ok s -> hist_inv s -> exec a s = Some s' -> hist_inv s'.
Proof.
  intros Hok [Hf Hp] H. split.
  - step_cases H; unfold enqs, deqs in *; rewrite ?omap_app; simpl;
      rewrite ?app_nil_r; try congruence.
    + by rewrite Hf, (assoc_L (++)).
    + by rewrite Hf, <- (assoc_L (++)).
  - step_cases H; unfold deqs, runs, inflight in *; simpl; rewrite ?omap_app; simpl;
      rewrite ?app_nil_r, ?held_wake; try done.
    all: try (rewrite Hp; f_equiv; symmetry;
              match goal with H : workers ?s !! ?i = Some ?p |- _ =>
                by apply (held_same (workers s) i p) end).
    + rewrite Hp, <- (assoc_L (++)). f_equiv. symmetry. by eapply held_take.
    + rewrite Hp, <- (assoc_L (++)). f_equiv. simpl. by eapply held_ran.
    + edestruct Hok as (pt & ? & Hpt); [done|]. simplify_eq.
      by rewrite (invoke_pending _ _ Hpt) in *.
    + edestruct Hok as (pt & ? & Hpt); [done|]. simplify_eq.
Qed.

Lemma hist_inv_init threads : hist_inv (ThreadPool threads).
Proof.
  split; simpl; [done|]. unfold inflight. simpl.
  induction threads as [|n IH]; simpl; [done|]. by rewrite <- IH.
Qed.

(** ** Committed calls *)

Lemma committed_snoc (l : list cpc) j :
  from_option committed false ((l ++ [CLock]) !! j) = from_option committed false (l !! j).
Proof.
  destruct (decide (j < length l)).
  - by rewrite lookup_app_l.
  - rewrite (lookup_ge_None_2 l j) by lia. rewrite lookup_app_r by lia.
    by destruct (j - length l) as [|[|?]].
Qed.

Lemma committed_insert (l : list cpc) j j' p q :
  l !! j = Some p -> committed q = committed p ->
  from_option committed false (<[j := q]> l !! j') = from_option committed false (l !! j').
Proof.
  intros Hj Hq. destruct (decide (j = j')) as [<-|Hne].
  - use_lookups. done.
  - by rewrite list_lookup_insert_ne.
Qed.

Lemma commit_footprint a s s' :
  exec a s = Some s' ->
  (enqs (hist s') = enqs (hist s) /\ forall j, is_committed s' j = is_committed s j) \/
  (exists j0, enqs (hist s') = enqs (hist s) ++ [j0] /\
     is_committed s j0 = false /\ is_committed s' j0 = true /\
     forall j, j ≠ j0 -> is_committed s' j = is_committed s j).
Proof.
  intros H. unfold is_committed, enqs.
  step_cases H; rewrite ?omap_app; simpl; rewrite ?app_nil_r.
  all: try (left; split; [done|]; intros j'; try done;
            first [ by eapply committed_insert | by apply committed_snoc ]).
  right. exists j. use_lookups. simpl. repeat split; try done.
  intros j1 Hne. by rewrite list_lookup_insert_ne.
Qed.

Lemma commit_inv_init threads : commit_inv (ThreadPool threads).
Proof.
  split; simpl; try done.
  - intros j. unfold is_committed. simpl. split; [by intros ?%elem_of_nil|done].
  - constructor.
Qed.

Lemma commit_inv_step a s s' :
  commit_inv s -> exec a s = Some s' -> commit_inv s'.
Proof.
  intros [He Hn Hr Hh] H. split.
  - intros j. destruct (commit_footprint _ _ _ H) as [[-> Hc]|(j0 & -> & H0 & H1 & Hc)].
    + by rewrite Hc.
    + rewrite elem_of_app, list_elem_of_singleton.
      destruct (decide (j = j0)) as [->|Hne]; [by split; auto|].
      rewrite Hc, <- He by done. split; [by intros [?|?]|by left].
  - destruct (commit_footprint _ _ _ H) as [[-> Hc]|(j0 & -> & H0 & H1 & Hc)]; [done|].
    apply NoDup_app. split_and!; [done| |apply NoDup_singleton].
    intros x Hx ->%list_elem_of_singleton. apply He in Hx. congruence.
  - intros j h Hj. step_cases H; inv_lookup; eauto.
  - step_cases H; rewrite ?length_insert, ?length_app; simpl; lia.
Qed.

(** ** The heap of packaged tasks *)

Lemma runs_enqs s t : hist_inv s -> t ∈ runs (hist s) -> t ∈ enqs (hist s).
Proof.
  intros [Hf Hp] Ht. rewrite Hf, Hp, !elem_of_app. auto.
Qed.

Lemma inflight_enqs s t : hist_inv s -> t ∈ inflight s -> t ∈ enqs (hist s).
Proof.
  intros [Hf Hp] Ht. rewrite Hf, Hp, !elem_of_app. auto.
Qed.

Lemma enqs_lt s t : commit_inv s -> t ∈ enqs (hist s) -> t < length (heap s).
Proof.
  intros Hc Ht. apply (commit_enq s Hc) in Ht. rewrite (commit_heap s Hc).
  unfold is_committed in Ht. destruct (calls s !! t) eqn:E; [|done].
  by eapply lookup_lt_Some.
Qed.

Lemma elem_of_inflight s i t :
  workers s !! i = Some (WCall t) -> t ∈ inflight s.
Proof.
  intros Hi. unfold inflight. apply list_elem_of_bind. exists (WCall t).
  split; [apply list_elem_of_singleton; done|]. by eapply list_elem_of_lookup_2.
Qed.

Lemma inflight_not_run s t :
  hist_inv s -> commit_inv s -> t ∈ inflight s -> t ∉ runs (hist s).
Proof.
  intros [Hf Hp] Hc Ht Hr.
  pose proof (commit_nodup s Hc) as Hn. rewrite Hf in Hn.
  apply NoDup_app in Hn as (Hn & _ & _). rewrite Hp in Hn.
  apply NoDup_app in Hn as (_ & Hn & _). by eapply Hn.
Qed.

Lemma inv_call_ok s : hist_inv s -> commit_inv s -> heap_inv s -> call_ok s.
Proof.
  intros Hh Hc Hp i t Hi. apply elem_of_inflight in Hi.
  assert (t < length (heap s)) as [pt Hpt]%lookup_lt_is_Some.
  { eauto using enqs_lt, inflight_enqs. }
  exists pt. split; [done|]. apply (heap_pending s Hp t pt Hpt).
  by apply inflight_not_run.
Qed.

Lemma store_not_pending o : store o ≠ Pending.
Proof. by destruct o. Qed.

Lemma heap_inv_init threads : heap_inv (ThreadPool threads).
Proof. split; simpl; intros t pt Ht; by rewrite lookup_nil in Ht. Qed.

Lemma runs_lt s t : hist_inv s -> commit_inv s -> t ∈ runs (hist s) -> t < length (heap s).
Proof. eauto using enqs_lt, runs_enqs. Qed.

Lemma enqs_app h1 h2 : enqs (h1 ++ h2) = enqs h1 ++ enqs h2.
Proof. apply omap_app. Qed.
Lemma deqs_app h1 h2 : deqs (h1 ++ h2) = deqs h1 ++ deqs h2.
Proof. apply omap_app. Qed.
Lemma runs_app h1 h2 : runs (h1 ++ h2) = runs h1 ++ runs h2.
Proof. apply omap_app. Qed.

Ltac simpl_hist := rewrite ?enqs_app, ?deqs_app, ?runs_app; simpl; rewrite ?app_nil_r.

Lemma heap_inv_step a s s' :
  hist_inv s -> commit_inv s -> heap_inv s -> exec a s = Some s' -> heap_inv s'.
Proof.
  intros Hh Hc [Hp Hv] H. split.
  - intros t pt Ht. step_cases H; simpl_hist; eauto.
    + apply lookup_snoc_Some in Ht as [[_ Ht]|[-> <-]]; [eauto|]. simpl.
      split; [|done]. intros _ Hr%runs_lt; [lia|done..].
    + rewrite elem_of_app, list_elem_of_singleton.
      match goal with H : invoke _ _ = Some _ |- _ =>
        apply invoke_Some in H as (Hpend & -> & ->) end.
      apply list_lookup_insert_Some in Ht as [(-> & <- & ?)|(? & Ht)]; simpl.
      * split; [intros Hs; by apply store_not_pending in Hs|].
        intros Hn. destruct Hn. by right.
      * rewrite (Hp t pt Ht). split; [by intros Hn [?|?]|].
        intros Hn Hr. apply Hn. by left.
  - intros t pt Ht Hne. step_cases H; eauto.
    + apply lookup_snoc_Some in Ht as [[_ Ht]|[-> <-]]; [eauto|done].
    + destruct (Hv t pt Ht Hne) as (i & w & Hin & Hr). exists i, w.
      split; [|done]. apply elem_of_app; auto.
    + destruct (Hv t pt Ht Hne) as (i0 & w & Hin & Hr). exists i0, w.
      split; [|done]. apply elem_of_app; auto.
    + match goal with H : invoke _ _ = Some _ |- _ =>
        apply invoke_Some in H as (Hpend & -> & ->) end.
      apply list_lookup_insert_Some in Ht as [(-> & <- & ?)|(? & Ht)]; simpl.
      * exists i, (world s). split; [|done]. apply elem_of_app. right.
        by apply list_elem_of_singleton.
      * destruct (Hv t pt Ht Hne) as (i0 & w & Hin & Hr). exists i0, w.
        split; [|done]. apply elem_of_app; auto.
Qed.

(** ** No worker faults *)

Lemma no_fault_init threads : no_fault (ThreadPool threads).
Proof. intros i Hi. by apply lookup_replicate in Hi as [? _]. Qed.

Lemma no_fault_step a s s' :
  cs_inv s -> call_ok s -> no_fault s -> exec a s = Some s' -> no_fault s'.
Proof.
  intros Hcs Hok Hn H i Hi. step_cases H; inv_lookup; try by eapply Hn.
  - by eapply (cs_take s Hcs).
  - edestruct Hok as (pt & ? & Hpt); [done|]. simplify_eq.
    by rewrite (invoke_pending _ _ Hpt) in *.
  - edestruct Hok as (pt & ? & Hpt); [done|]. simplify_eq.
Qed.

(** ** No lost wake-up *)

Lemma wake_inv_init threads : wake_inv (ThreadPool threads).
Proof. by intros ?. Qed.

Lemma wait_pred_stop s : stop s = true -> wait_pred s = true.
Proof. unfold wait_pred. by intros ->. Qed.

Lemma wake_inv_step a s s' :
  stop_inv s -> wake_inv s -> exec a s = Some s' -> wake_inv s'.
Proof.
  unfold stop_inv. intros Hs Hw H Hn i Hi.
  step_cases H; inv_lookup; try (by eapply Hw).
  - rewrite wait_pred_stop in *; [done|]. rewrite Hs. by destruct (owner s).
  - eapply Hw; [|done]. by use_lookups.
  - eapply Hw; [|done]. by use_lookups.
Qed.

(** ** One worker *)

Lemma solo_inv_init threads : solo_inv (ThreadPool threads).
Proof. intros H. simpl in H. rewrite length_replicate in H. by subst. Qed.

Lemma solo_workers (l : list wpc) i p :
  length l = 1 -> l !! i = Some p -> i = 0 /\ l = [p].
Proof. destruct l as [|q [|]]; intros; simplify_eq/=. destruct i; by simplify_eq/=. Qed.

Lemma solo_inv_step a s s' :
  call_ok s -> solo_inv s -> exec a s = Some s' -> solo_inv s'.
Proof.
  intros Hok Hs H Hl.
  rewrite (workers_length_step _ _ _ H) in Hl. specialize (Hs Hl).
  unfold inflight in *.
  step_cases H; simpl_hist; rewrite ?held_wake; try done.
  all: try match goal with H : workers ?s !! ?i = Some ?p |- _ =>
         destruct (solo_workers _ _ _ Hl H) as [-> Hw]; rewrite Hw in *; simpl in *;
         rewrite ?app_nil_r in * end; try done.
  - by rewrite Hs.
  - edestruct (Hok 0) as (pt & ? & Hpt); [by rewrite Hw|]. simplify_eq.
    by rewrite (invoke_pending _ _ Hpt) in *.
  - edestruct (Hok 0) as (pt & ? & Hpt); [by rewrite Hw|]. simplify_eq.
Qed.

(** ** All invariants together *)

Lemma inv_init threads : inv threads (ThreadPool threads).
Proof.
  split; auto using mutex_inv_init, cs_inv_init, join_inv_init, wake_inv_init,
    hist_inv_init, solo_inv_init, commit_inv_init, heap_inv_init, no_fault_init.
  - apply length_replicate.
  - done.
  - intros i Hi. by apply lookup_replicate in Hi as [? _].
Qed.

Lemma inv_step threads a s s' :
  inv threads s -> exec a s = Some s' -> inv threads s'.
Proof.
  intros [] H.
  assert (call_ok s) by by apply inv_call_ok.
  split; eauto using mutex_inv_step, stop_inv_step, cs_inv_step, done_inv_step,
    join_inv_step, wake_inv_step, hist_inv_step, solo_inv_step, commit_inv_step,
    heap_inv_step, no_fault_step.
  by rewrite (workers_length_step _ _ _ H).
Qed.

Lemma reachable_inv threads s : reachable threads s -> inv threads s.
Proof. induction 1; eauto using inv_init, inv_step. Qed.

(** ** Facts used by the properties *)

Lemma reachable_after threads acts :
  is_Some (run acts (ThreadPool threads)) -> reachable threads (after threads acts).
Proof.
  intros [s Hs]. unfold after. rewrite Hs. simpl.
  eapply reachable_run; [apply reach_init|done].
Qed.

Lemma stop_step a s s' : exec a s = Some s' -> stop s = true -> stop s' = true.
Proof. intros H Hs. by step_cases H. Qed.

Lemma stop_run acts s s' : run acts s = Some s' -> stop s = true -> stop s' = true.
Proof.
  revert s. induction acts as [|a acts IH]; simpl; intros s Hr Hs; [by simplify_eq|].
  destruct (exec a s) as [s1|] eqn:E; [|done]. eauto using stop_step.
Qed.

Lemma rejected_step a s s' j p :
  stop s = true -> exec a s = Some s' ->
  calls s !! j = Some p -> rejected p = true ->
  exists p', calls s' !! j = Some p' /\ rejected p' = true.
Proof.
  intros Hs H Hj Hp.
  step_cases H; eauto.
  all: try (destruct (decide (j = j0)) as [->|Hne];
    [simplify_eq; use_lookups; eauto
    |rewrite list_lookup_insert_ne by done; eauto]).
  rewrite lookup_app_l by (by eapply lookup_lt_Some). eauto.
Qed.

Lemma rejected_run acts s s' j p :
  stop s = true -> run acts s = Some s' ->
  calls s !! j = Some p -> rejected p = true ->
  exists p', calls s' !! j = Some p' /\ rejected p' = true.
Proof.
  revert s p. induction acts as [|a acts IH]; simpl; intros s p Hs Hr Hj Hp.
  - simplify_eq. eauto.
  - destruct (exec a s) as [s1|] eqn:E; [|done].
    destruct (rejected_step _ _ _ _ _ Hs E Hj Hp) as (p1 & Hj1 & Hp1).
    eauto using stop_step.
Qed.

(** On a stopped pool no statement of [enqueue] writes the queue. *)
Lemma caller_stopped_frame threads a s s' j :
  inv threads s -> stop s = true -> exec a s = Some s' ->
  actor a s = Caller j -> tasks s' = tasks s /\ stop s' = true.
Proof.
  intros Hi Hs H Ha. step_cases H; try done.
  match goal with H : calls s !! ?j = Some CEmplace |- _ =>
    by rewrite (cs_emplace s (inv_cs _ _ Hi) j CEmplace H) in Hs by auto end.
Qed.

(** ** The statements of the worker loop, one at a time *)


Lemma work_check s i :
  workers s !! i = Some WCheck -> exit_test s = false ->
  exec (Work i) s = Some (set_wpc i WTake s).
Proof. intros Hi He. simpl. unfold worker_step. by rewrite Hi, He. Qed.

Lemma work_take s i t q :
  workers s !! i = Some WTake -> tasks s = t :: q ->
  exec (Work i) s = Some (set_wpc i (WUnlock t) (log (Deq i t) (set_tasks q s))).
Proof. intros Hi Ht. simpl. unfold worker_step. by rewrite Hi, Ht. Qed.

Lemma work_unlock s i t :
  workers s !! i = Some (WUnlock t) ->
  exec (Work i) s = Some (set_wpc i (WCall t) (release s)).
Proof. intros Hi. simpl. unfold worker_step. by rewrite Hi. Qed.

Lemma work_call s i t pt :
  workers s !! i = Some (WCall t) -> heap s !! t = Some pt -> result pt = Pending ->
  exec (Work i) s =
    Some (set_wpc i WLock
            (log (Ran i t (world s))
               (set_world (fn pt (world s)).1
                  (set_heap (<[t := fulfil pt (world s)]> (heap s)) s)))).
Proof.
  intros Hi Ht Hp. simpl. unfold worker_step. rewrite Hi, Ht.
  by rewrite (invoke_pending _ _ Hp).
Qed.

Lemma wpc_set s i p :
  i < length (workers s) -> workers (set_wpc i p s) !! i = Some p.
Proof. intros Hi. simpl. by apply list_lookup_insert_eq. Qed.

Lemma run_cons a acts s s1 r :
  exec a s = Some s1 -> run acts s1 = r -> run (a :: acts) s = r.
Proof. intros H1 H2. simpl. by rewrite H1. Qed.

Lemma caller_frame a s s' j :
  exec a s = Some s' -> actor a s = Caller j ->
  stop s' = stop s /\ length (workers s') = length (workers s) /\
  world s' = world s /\ owner s' = owner s /\
  (forall i p, workers s !! i = Some p -> workers s' !! i = Some p \/
      (p = WBlocked /\ workers s' !! i = Some WNotified)) /\
  (tasks s' = tasks s \/
   (tasks s' = tasks s ++ [j] /\ a = Call j /\ calls s !! j = Some CEmplace)).
Proof.
  intros H Ha. pose proof (workers_length_step _ _ _ H) as Hl.
  step_cases H; split_and!; auto.
  all: intros i p Hi;
    match goal with |- context [<[?n := _]> _ !! _] =>
      destruct (decide (i = n)) as [->|Hne];
        [simplify_eq; right; split; [done|by use_lookups]
        |left; by rewrite list_lookup_insert_ne by done] end.
Qed.

Lemma worker_frame a s s' i :
  exec a s = Some s' -> actor a s = Worker i ->
  stop s' = stop s /\ length (workers s') = length (workers s) /\
  calls s' = calls s /\ owner s' = owner s /\
  (forall i' , i' ≠ i -> workers s' !! i' = workers s !! i') /\
  (tasks s' = tasks s \/
   (exists t, tasks s = t :: tasks s' /\ a = Work i /\ workers s !! i = Some WTake)).
Proof.
  intros H Ha. pose proof (workers_length_step _ _ _ H) as Hl.
  step_cases H; split_and!; eauto.
  all: intros i' Hne; by rewrite list_lookup_insert_ne by done.
Qed.

Lemma future_get_store pt o : result pt = store o -> future_get pt = Some o.
Proof. unfold future_get. intros ->. by destruct o. Qed.

Lemma future_get_Some pt o : future_get pt = Some o -> result pt = store o.
Proof. unfold future_get. destruct (result pt); intros; by simplify_eq. Qed.

Lemma all_done_inflight (l : list wpc) :
  (forall i p, l !! i = Some p -> p = WDone) -> l ≫= held = [].
Proof.
  induction l as [|p l IH]; intros H; [done|].
  rewrite bind_cons, IH; [|intros i q Hq; by apply (H (S i))].
  by rewrite (H 0 p).
Qed.

Lemma drained threads s :
  inv threads s -> 1 <= threads -> owner s = DDone ->
  tasks s = [] /\ (forall i p, workers s !! i = Some p -> p = WDone) /\
  runs (hist s) ≡ₚ enqs (hist s).
Proof.
  intros Hinv Hn Ho.
  assert (forall i p, workers s !! i = Some p -> p = WDone) as Hall.
  { intros i p Hi. pose proof (lookup_lt_Some _ _ _ Hi) as Hlt.
    rewrite (join_all s (inv_join _ _ Hinv) i Ho Hlt) in Hi. by simplify_eq. }
  assert (tasks s = []) as Hq.
  { assert (0 < length (workers s)) as [p Hp]%lookup_lt_is_Some
      by (rewrite (inv_size _ _ Hinv); lia).
    pose proof (Hall 0 p Hp) as ->. by apply (inv_done _ _ Hinv 0). }
  split_and!; try done.
  destruct (inv_hist _ _ Hinv) as [Hf Hp]. rewrite Hf, Hp, Hq. unfold inflight.
  by rewrite (all_done_inflight _ Hall), !app_nil_r.
Qed.

Lemma NoDup_places s :
  hist_inv s -> commit_inv s -> NoDup (runs (hist s) ++ inflight s ++ tasks s).
Proof.
  intros [Hf Hp] Hc. rewrite (assoc_L (++)), <- Hp, <- Hf. apply Hc.
Qed.

Lemma count_occ_NoDup (l : list nat) t : NoDup l -> t ∈ l -> count_occ Nat.eq_dec l t = 1.
Proof.
  intros Hn Ht. apply NoDup_ListNoDup in Hn. apply list_elem_of_In in Ht.
  pose proof (proj1 (List.NoDup_count_occ Nat.eq_dec l) Hn t).
  pose proof (proj1 (List.count_occ_In Nat.eq_dec l t) Ht). lia.
Qed.

(** ** The destructor returns *)

Lemma sum_list_insert {A} (f : A -> nat) (l : list A) i p q :
  l !! i = Some p ->
  sum_list (f <$> <[i := q]> l) + f p = sum_list (f <$> l) + f q.
Proof.
  revert i. induction l as [|a l IH]; intros [|i] Hi; simplify_eq/=; [lia|].
  specialize (IH i Hi). lia.
Qed.

(** Either the owner can run its next statement, or some other thread
    can run one that reduces the backlog. *)
Lemma sched_step threads s :
  inv threads s -> owner s ≠ DDone ->
  is_Some (exec Own s) \/
  exists a s', is_spurious a = false /\ actor a s ≠ Owner /\
    exec a s = Some s' /\ backlog s' < backlog s.
Proof.
  intros Hinv Hnd.
  pose proof (inv_mutex _ _ Hinv) as Hm.
  destruct (queue_mutex s) as [[|i|j]|] eqn:Hq.
  - (* the owner holds the mutex *)
    left. apply Hm in Hq. simpl in Hq |- *. unfold destructor_step.
    destruct (owner s); simplify_eq/=; eauto.
  - (* worker i holds it *)
    right. exists (Work i). pose proof Hq as Hh. apply Hm in Hh. simpl in Hh.
    destruct (workers s !! i) as [p|] eqn:Hi; [|done].
    pose proof (sum_list_insert wrank (workers s) i p) as Hsum.
    unfold backlog. simpl. unfold worker_step. rewrite Hi.
    destruct p; simplify_eq/=.
    + destruct (wait_pred s); eexists; (split_and!; [done..|]); simpl.
      * specialize (Hsum WCheck Hi). simpl in Hsum. lia.
      * specialize (Hsum WBlocked Hi). simpl in Hsum. lia.
    + destruct (exit_test s); eexists; (split_and!; [done..|]); simpl.
      * specialize (Hsum WDone Hi). simpl in Hsum. lia.
      * specialize (Hsum WTake Hi). simpl in Hsum. lia.
    + destruct (tasks s) as [|t q] eqn:Ht; eexists; (split_and!; [done..|]); simpl.
      * specialize (Hsum WFault Hi). simpl in Hsum. rewrite ?Ht. simpl. lia.
      * specialize (Hsum (WUnlock t) Hi). simpl in Hsum. rewrite ?Ht. simpl. lia.
    + eexists; (split_and!; [done..|]); simpl.
      specialize (Hsum (WCall t) Hi). simpl in Hsum. lia.
  - (* a call of enqueue holds it *)
    right. exists (Call j). pose proof Hq as Hh. apply Hm in Hh. simpl in Hh.
    destruct (calls s !! j) as [p|] eqn:Hj; [|done].
    pose proof (sum_list_insert crank (calls s) j p) as Hsum.
    unfold backlog. simpl. unfold enqueue_step. rewrite Hj.
    destruct p; simplify_eq/=.
    + destruct (stop s); eexists; (split_and!; [done..|]); simpl.
      * specialize (Hsum (CReturned (inl (runtime_error stopped_msg))) Hj).
        simpl in Hsum. lia.
      * specialize (Hsum CEmplace Hj). simpl in Hsum. lia.
    + eexists; (split_and!; [done..|]); simpl.
      specialize (Hsum CUnlock Hj). simpl in Hsum. rewrite length_app. simpl. lia.
    + eexists; (split_and!; [done..|]); simpl.
      specialize (Hsum CNotify Hj). simpl in Hsum. lia.
  - (* the mutex is free *)
    assert (holds s Owner = false) as Ho.
    { destruct (holds s Owner) eqn:E; [|done]. apply Hm in E. congruence. }
    simpl in Ho |- *. unfold destructor_step, acquire. rewrite Hq.
    destruct (owner s) as [| | | |k|] eqn:Hown; simplify_eq/=; eauto.
    destruct (workers s !! k) as [p|] eqn:Hk; [|eauto].
    assert (holds s (Worker k) = false) as Hw.
    { destruct (holds s (Worker k)) eqn:E; [|done]. apply Hm in E. congruence. }
    simpl in Hw. rewrite Hk in Hw. simpl in Hw.
    pose proof (sum_list_insert wrank (workers s) k p) as Hsum.
    destruct p; simplify_eq/=; [| | | |by left; eauto|];
      right; exists (Work k); unfold backlog; simpl; unfold worker_step, acquire;
      rewrite Hk, ?Hq.
    + eexists; (split_and!; [done..|]); simpl.
      specialize (Hsum WWait Hk). simpl in Hsum. lia.
    + exfalso. eapply (inv_wake _ _ Hinv); [by rewrite Hown|done].
    + eexists; (split_and!; [done..|]); simpl.
      specialize (Hsum WWait Hk). simpl in Hsum. lia.
    + destruct (heap s !! t) as [pt|]; [destruct (invoke pt (world s)) as [[pt' w']|]|];
        eexists; (split_and!; [done..|]); simpl.
      * specialize (Hsum WLock Hk). simpl in Hsum. lia.
      * specialize (Hsum WFault Hk). simpl in Hsum. lia.
      * specialize (Hsum WFault Hk). simpl in Hsum. lia.
    + exfalso. by eapply (inv_fault _ _ Hinv).
Qed.

Lemma run_snoc acts1 acts2 s s1 s2 :
  run acts1 s = Some s1 -> run acts2 s1 = Some s2 -> run (acts1 ++ acts2) s = Some s2.
Proof. intros H1 H2. rewrite run_app, H1. done. Qed.

(** The other threads get out of the owner's way. *)
Lemma owner_turn threads n s :
  reachable threads s -> backlog s <= n -> owner s ≠ DDone ->
  exists acts s', run acts s = Some s' /\ no_spurious acts /\
    owner s' = owner s /\ length (workers s') = length (workers s) /\
    is_Some (exec Own s').
Proof.
  revert s. induction n as [|n IH]; intros s Hr Hb Hnd.
  all: destruct (sched_step threads s (reachable_inv _ _ Hr) Hnd)
         as [Hown|(a & s1 & Hsp & Hact & Hex & Hlt)].
  all: try (exists [], s; split_and!; by try constructor).
  - lia.
  - destruct (IH s1) as (acts & s' & Hrun & Hns & Ho & Hl & Hown).
    + by eapply reach_step.
    + lia.
    + by rewrite (owner_frame _ _ _ Hex Hact).
    + exists (a :: acts), s'. split_and!; try done.
      * by eapply run_cons.
      * by constructor.
      * by rewrite Ho, (owner_frame _ _ _ Hex Hact).
      * by rewrite Hl, (workers_length_step _ _ _ Hex).
Qed.

Lemma own_decreases s s' : exec Own s = Some s' -> orank s' < orank s.
Proof.
  intros H. pose proof (workers_length_step _ _ _ H) as Hl. unfold orank.
  rewrite Hl. clear Hl. step_cases H; try lia.
  match goal with H : workers s !! _ = Some _ |- _ => apply lookup_lt_Some in H end.
  lia.
Qed.

Lemma destructor_returns threads n s :
  reachable threads s -> orank s <= n ->
  exists acts s', run acts s = Some s' /\ no_spurious acts /\ owner s' = DDone.
Proof.
  revert s. induction n as [|n IH]; intros s Hr Hn.
  all: destruct (decide (owner s = DDone)) as [Hd|Hnd];
    [exists [], s; split_and!; by try constructor|].
  - unfold orank in Hn. destruct (owner s); (done || lia).
  - destruct (owner_turn threads (backlog s) s Hr) as
      (acts1 & s1 & Hrun1 & Hns1 & Ho1 & Hl1 & [s2 Hown]); [done..|].
    destruct (IH s2) as (acts2 & s' & Hrun2 & Hns2 & Hd).
    + eapply reach_step; [|done]. by eapply reachable_run.
    + apply own_decreases in Hown. unfold orank in *. rewrite Ho1, Hl1 in Hown. lia.
    + exists (acts1 ++ Own :: acts2), s'. split_and!; try done.
      * eapply run_snoc; [done|]. by eapply run_cons.
      * apply Forall_app. split; [done|]. by constructor.
Qed.

(** ** A call of enqueue that nobody interrupts *)

Lemma first_blocked_Some l i : first_blocked l = Some i -> l !! i = Some WBlocked.
Proof.
  revert i. induction l as [|p l IH]; intros i H; simpl in *; [done|].
  destruct p; simplify_eq/=; try done.
  all: destruct (first_blocked l) as [i'|]; simplify_eq/=; by apply IH.
Qed.

Lemma first_blocked_None l : first_blocked l = None -> existsb blocked l = false.
Proof.
  induction l as [|p l IH]; intros H; simpl in *; [done|].
  destruct (blocked p); [done|]. destruct (first_blocked l); [done|]. by apply IH.
Qed.

Lemma insert_snoc {A} (l : list A) x y : <[length l := y]> (l ++ [x]) = l ++ [y].
Proof. rewrite insert_app_r_alt, Nat.sub_diag by done. done. Qed.

Lemma lookup_snoc {A} (l : list A) x : (l ++ [x]) !! length l = Some x.
Proof. by rewrite lookup_app_r, Nat.sub_diag by done. Qed.

Lemma enqueue_succeeds s f :
  stop s = false -> queue_mutex s = None ->
  let j := length (calls s) in
  let k := first_blocked (workers s) in
  exists s', run (enqueue_solo f j k) s = Some s' /\
    calls s' = calls s ++ [CReturned (inr j)] /\
    heap s' = heap s ++ [PackagedTask f Pending] /\
    tasks s' = tasks s ++ [j] /\
    hist s' = hist s ++ [Enq j] /\
    workers s' = woken k (workers s) /\
    stop s' = false /\ queue_mutex s' = None /\
    owner s' = owner s /\ world s' = world s.
Proof.
  intros Hs Hm j k. subst j. unfold enqueue_solo. simpl. unfold_step. simpl.
  rewrite lookup_snoc. simpl. rewrite Hm. simpl.
  rewrite insert_snoc, lookup_snoc, Hs. simpl.
  rewrite insert_snoc, lookup_snoc. simpl.
  rewrite insert_snoc, lookup_snoc. simpl.
  rewrite insert_snoc, lookup_snoc. simpl.
  subst k. destruct (first_blocked (workers s)) as [i|] eqn:Hk; simpl.
  - rewrite (first_blocked_Some _ _ Hk). simpl. rewrite insert_snoc.
    eexists. split; [done|]. simpl. by split_and!.
  - rewrite (first_blocked_None _ Hk). simpl. rewrite insert_snoc.
    eexists. split; [done|]. simpl. by split_and!.
Qed.

Lemma returned_stable a s s' j r :
  exec a s = Some s' -> calls s !! j = Some (CReturned r) ->
  calls s' !! j = Some (CReturned r).
Proof.
  intros H Hj. step_cases H; try done.
  all: try (rewrite list_lookup_insert_ne; [done|congruence]).
  by apply lookup_app_l_Some.
Qed.

Lemma returned_stable_run acts s s' j r :
  run acts s = Some s' -> calls s !! j = Some (CReturned r) ->
  calls s' !! j = Some (CReturned r).
Proof.
  revert s. induction acts as [|a acts IH]; simpl; intros s Hr Hj; [by simplify_eq|].
  destruct (exec a s) as [s1|] eqn:E; [|done]. eauto using returned_stable.
Qed.

Lemma no_spurious_enqueue f j k : no_spurious (enqueue_solo f j k).
Proof. unfold enqueue_solo. by repeat constructor. Qed.

(** Any number of calls, one after the other, on a pool that is not
    stopped: all of them return their future. *)
Lemma submit_all (fs : list callable) s :
  stop s = false -> queue_mutex s = None ->
  exists acts s', run acts s = Some s' /\ no_spurious acts /\
    stop s' = false /\ queue_mutex s' = None /\ owner s' = owner s /\
    forall j, length (calls s) <= j < length (calls s) + length fs ->
              calls s' !! j = Some (CReturned (inr j)).
Proof.
  revert s. induction fs as [|f fs IH]; intros s Hs Hm.
  - exists [], s. split_and!; try done; [constructor|]. simpl. lia.
  - destruct (enqueue_succeeds s f Hs Hm)
      as (s1 & Hr1 & Hc1 & _ & _ & _ & _ & Hs1 & Hm1 & Ho1 & _).
    destruct (IH s1 Hs1 Hm1) as (acts & s' & Hr & Hns & Hs' & Hm' & Ho' & Hall).
    eexists (_ ++ acts), s'. split_and!; try done.
    + by eapply run_snoc.
    + apply Forall_app. split; [apply no_spurious_enqueue|done].
    + congruence.
    + intros j Hj. rewrite Hc1, length_app in Hall. simpl in *.
      destruct (decide (j = length (calls s))) as [->|Hne]; [|apply Hall; lia].
      eapply returned_stable_run; [done|]. rewrite Hc1. apply lookup_snoc.
Qed.


Lemma served_once threads s j :
  inv threads s -> 1 <= threads -> owner s = DDone ->
  calls s !! j = Some (CReturned (inr j)) -> invocations s j = 1.
Proof.
  intros Hinv Hth Ho Hj. destruct (drained _ _ Hinv Hth Ho) as (_ & _ & Hp).
  pose proof (NoDup_places s (inv_hist _ _ Hinv) (inv_commit _ _ Hinv)) as Hn.
  apply count_occ_NoDup; [by apply NoDup_app in Hn as [Hn _]|].
  rewrite Hp. apply (commit_enq s (inv_commit _ _ Hinv)).
  unfold is_committed. by rewrite Hj.
Qed.

(** For every number of workers and every list of callables there is a
    complete execution: all the calls return their future, the
    destructor returns, and every callable has run once. *)
Lemma submit_then_shutdown threads (fs : list callable) :
  1 <= threads ->
  exists acts s, run acts (ThreadPool threads) = Some s /\ no_spurious acts /\
    owner s = DDone /\
    forall j, j < length fs ->
      calls s !! j = Some (CReturned (inr j)) /\ invocations s j = 1.
Proof.
  intros Hth.
  destruct (submit_all fs (ThreadPool threads))
    as (acts1 & s1 & Hr1 & Hns1 & _ & _ & _ & Hall); [done..|].
  assert (reachable threads s1) as Hreach1
    by (eapply reachable_run; [apply reach_init|done]).
  destruct (destructor_returns threads (orank s1) s1 Hreach1)
    as (acts2 & s & Hr2 & Hns2 & Ho); [done|].
  assert (reachable threads s) as Hreach by by eapply reachable_run.
  exists (acts1 ++ acts2), s. split_and!; try done.
  - by eapply run_snoc.
  - by apply Forall_app.
  - intros j Hj.
    assert (calls s !! j = Some (CReturned (inr j))) as Hc.
    { eapply returned_stable_run; [done|]. apply Hall. simpl. lia. }
    split; [done|]. by eapply served_once; [apply reachable_inv|..].
Qed.

(** ** The loop of the constructor *)


Lemma construct_loop_inr spawn n i ws ws' :
  construct_loop spawn n i ws = inr ws' -> ws' = ws ++ replicate n WLock.
Proof.
  revert i ws. induction n as [|n IH]; intros i ws H; simpl in H.
  - simplify_eq. by rewrite app_nil_r.
  - destruct (spawn i); [|done]. rewrite (IH _ _ H).
    by rewrite <- (assoc_L (++)).
Qed.

(** A construction that returns has built [ThreadPool threads], the state
    every execution starts from. *)
Lemma construct_inr spawn threads s :
  construct spawn threads = inr s -> s = ThreadPool threads.
Proof.
  unfold construct. destruct (construct_loop spawn threads 0 []) as [e|ws] eqn:Hl; [done|].
  intros ?. simplify_eq. by rewrite (construct_loop_inr _ _ _ _ _ Hl).
Qed.

(** * Part III: the properties of the pool *)

(** ** Drain on shutdown *)



(** ** No enqueue after shutdown *)

(** C2.  On a pool whose stop flag is set, a call of [enqueue] never
    changes the queue, whatever the other threads do while it runs, and it
    can only return by throwing [runtime_error("enqueue on stopped
    ThreadPool")].  Run without interruption from a state where the mutex
    is free, it does throw, and the queue, the flag and the workers are
    what they were. *)
Theorem enqueue_on_stopped_pool threads s f :
  reachable threads s -> stop s = true ->
  let j := length (calls s) in
  (forall acts a s1 s2,
      run (Submit f :: acts) s = Some s1 -> exec a s1 = Some s2 ->
      actor a s1 = Caller j -> tasks s2 = tasks s1) /\
  (forall acts s' r,
      run (Submit f :: acts) s = Some s' ->
      calls s' !! j = Some (CReturned r) -> r = inl (runtime_error stopped_msg)) /\
  (queue_mutex s = None ->
   exists s', run [Submit f; Call j; Call j] s = Some s' /\
     calls s' !! j = Some (CReturned (inl (runtime_error stopped_msg))) /\
     tasks s' = tasks s /\ stop s' = true /\ workers s' = workers s).
Proof.
  intros Hr Hs j. split_and!.
  - intros acts a s1 s2 Hrun H Ha.
    assert (reachable threads s1) as Hr1 by by eapply reachable_run.
    assert (stop s1 = true) as Hs1 by by eapply stop_run.
    by eapply caller_stopped_frame; [apply reachable_inv|..].
  - intros acts s' r Hrun Hj. simpl in Hrun.
    edestruct (rejected_run acts (enqueue_begin f s) s' j CLock) as (p' & Hp' & Hrej);
      try done.
    { unfold enqueue_begin. simpl. apply lookup_snoc. }
    simplify_eq. simpl in Hrej. destruct r as [[m]|]; [|done].
    by apply bool_decide_eq_true in Hrej as ->.
  - intros Hm. subst j. simpl. unfold_step. simpl.
    rewrite lookup_snoc. simpl. rewrite Hm. simpl.
    rewrite insert_snoc, lookup_snoc, Hs. simpl. rewrite insert_snoc.
    eexists. split; [done|]. simpl. split_and!; try done. apply lookup_snoc.
Qed.

Lemma enqueue_on_stopped_pool_witness :
  let s := after 1 (submit_two ++ destructor_entry) in
  exists s', run [Submit seven; Call 2; Call 2] s = Some s' /\
    calls s' !! 2 = Some (CReturned (inl (runtime_error stopped_msg))) /\
    tasks s' = tasks s /\ stop s' = true /\ workers s' = workers s.
Proof.
  intros s.
  destruct (enqueue_on_stopped_pool 1 s seven) as (_ & _ & H).
  - apply reachable_after. vm_compute. eauto.
  - vm_compute. reflexivity.
  - apply H. vm_compute. reflexivity.
Defined.

(** ** The end of a worker's wait *)



(** ** First in, first out *)

(** C4.  At any moment the work items taken out of the queue so far,
    followed by the ones still in it, are the work items in the order in
    which their [emplace] was done: dequeues follow the order of the
    enqueues, for every interleaving.  With one worker the same holds for
    execution: the tasks that have run, then the one the worker holds, then
    the queue, spell the order of submission. *)
Theorem fifo_order threads s :
  reachable threads s ->
  enqs (hist s) = deqs (hist s) ++ tasks s /\
  (threads = 1 -> enqs (hist s) = runs (hist s) ++ inflight s ++ tasks s).
Proof.
  intros Hr. destruct (reachable_inv _ _ Hr) as [Hsz _ _ _ _ _ _ [Hf _] Hsolo _ _ _].
  split; [done|]. intros ->. rewrite Hf, Hsolo by done. by rewrite (assoc_L (++)).
Qed.

Lemma fifo_order_witness :
  enqs (hist (after 1 scenario)) =
  runs (hist (after 1 scenario)) ++ inflight (after 1 scenario) ++
  tasks (after 1 scenario).
Proof.
  destruct (fifo_order 1 (after 1 scenario)) as [_ H].
  - apply reachable_after. vm_compute. eauto.
  - apply H. reflexivity.
Defined.

(** ** Exceptions of user callables *)

(** C5.  No worker ever leaves its loop through an exception or a fault.
    When the callable a worker is about to call throws, the exception is
    stored in the shared state of that task, where [future::get] rethrows
    it; the worker goes back to the top of its loop, and no other task,
    no other worker, and neither the queue nor the flag is touched.
    Whatever a future holds is the outcome of its own callable. *)
Theorem failure_isolation threads s :
  reachable threads s ->
  (forall i, workers s !! i ≠ Some WFault) /\
  (forall i t pt e w',
      workers s !! i = Some (WCall t) -> heap s !! t = Some pt ->
      fn pt (world s) = (w', Threw e) ->
      exists s', exec (Work i) s = Some s' /\
        workers s' !! i = Some WLock /\
        (exists pt', heap s' !! t = Some pt' /\ fn pt' = fn pt /\
                     future_get pt' = Some (Threw e)) /\
        (forall t', t' ≠ t -> heap s' !! t' = heap s !! t') /\
        (forall i', i' ≠ i -> workers s' !! i' = workers s !! i') /\
        tasks s' = tasks s /\ stop s' = stop s) /\
  (forall t pt o,
      heap s !! t = Some pt -> future_get pt = Some o ->
      exists i w, Ran i t w ∈ hist s /\ o = (fn pt w).2).
Proof.
  intros Hr. pose proof (reachable_inv _ _ Hr) as Hinv. split_and!.
  - apply (inv_fault _ _ Hinv).
  - intros i t pt e w' Hi Ht Hf.
    destruct (inv_call_ok s) with (i := i) (t := t) as (pt0 & Hpt0 & Hpend);
      try apply Hinv; [done|]. simplify_eq.
    eexists. split; [by apply work_call|]. simpl. split_and!; try done.
    + apply list_lookup_insert_eq. by eapply lookup_lt_Some.
    + eexists. split; [apply list_lookup_insert_eq; by eapply lookup_lt_Some|].
      split; [done|]. apply future_get_store. simpl. by rewrite Hf.
    + intros t' Hne. by apply list_lookup_insert_ne.
    + intros i' Hne. by apply list_lookup_insert_ne.
  - intros t pt o Ht Ho. apply future_get_Some in Ho.
    destruct (heap_value s (inv_heap _ _ Hinv) t pt Ht) as (i & w & Hin & Hres).
    { rewrite Ho. apply store_not_pending. }
    exists i, w. split; [done|]. rewrite Ho in Hres.
    destruct o, (fn pt w).2; by simplify_eq/=.
Qed.

Lemma failure_isolation_witness :
  let s := after 1 (submit_two ++ worker_fetch 0) in
  exists s', exec (Work 0) s = Some s' /\
    workers s' !! 0 = Some WLock /\
    (exists pt', heap s' !! 0 = Some pt' /\ fn pt' = boom /\
                 future_get pt' = Some (Threw "boom")) /\
    (forall t', t' ≠ 0 -> heap s' !! t' = heap s !! t') /\
    (forall i', i' ≠ 0 -> workers s' !! i' = workers s !! i') /\
    tasks s' = tasks s /\ stop s' = stop s.
Proof.
  intros s.
  destruct (failure_isolation 1 s) as (_ & H & _).
  - apply reachable_after. vm_compute. eauto.
  - apply (H 0 0 (PackagedTask boom Pending) "boom" []); vm_compute; reflexivity.
Defined.

(** ** Lock discipline *)

(** C6.  A step that invokes a user callable is a worker executing l.107,
    and that worker does not hold the queue mutex, neither before nor
    after the call: it gave the mutex back at the end of the scope above.
    No statement of [enqueue] invokes a callable: it runs nothing, leaves
    the world of the callables alone and changes no packaged task.  (The
    mutex may be held by another thread while a task runs; that is what
    releasing it is for.) *)
Theorem lock_discipline threads s a s' :
  reachable threads s -> exec a s = Some s' ->
  (forall i t w, hist s' = hist s ++ [Ran i t w] ->
     a = Work i /\ workers s !! i = Some (WCall t) /\
     queue_mutex s ≠ Some (Worker i) /\ queue_mutex s' ≠ Some (Worker i)) /\
  (forall j, actor a s = Caller j ->
     runs (hist s') = runs (hist s) /\ world s' = world s /\
     (forall t pt, heap s !! t = Some pt -> heap s' !! t = Some pt)) /\
  (runs (hist s') = runs (hist s) -> world s' = world s).
Proof.
  intros Hr H. pose proof (reachable_inv _ _ Hr) as Hinv.
  pose proof (inv_mutex _ _ Hinv) as Hm.
  pose proof (inv_mutex _ _ (inv_step _ _ _ _ Hinv H)) as Hm'.
  split_and!.
  - intros i t w Hh.
    assert (a = Work i /\ workers s !! i = Some (WCall t)) as [-> Hi].
    { revert Hh. step_cases H; intros Hh;
        try (by apply (f_equal length) in Hh;
                rewrite length_app in Hh; simpl in Hh; lia).
      all: apply app_inj_tail in Hh as [_ Hh]; by simplify_eq. }
    split_and!; try done.
    + intros Hh'. apply (Hm (Worker i)) in Hh'. simpl in Hh'. by rewrite Hi in Hh'.
    + intros Hh'. apply (Hm' (Worker i)) in Hh'. simpl in Hh'. revert Hh'.
      clear Hm'. step_cases H; use_lookups; done.
  - intros j Ha. step_cases H; simpl_hist; split_and!; try done.
    intros t pt Ht. by apply lookup_app_l_Some.
  - intros Hruns. step_cases H; try done.
    revert Hruns. simpl_hist. intros Hruns.
    apply (f_equal length) in Hruns. rewrite length_app in Hruns. simpl in Hruns. lia.
Qed.

Lemma lock_discipline_witness :
  queue_mutex (after 1 (submit_two ++ worker_fetch 0)) ≠ Some (Worker 0) /\
  queue_mutex (after 1 (submit_two ++ worker_round 0)) ≠ Some (Worker 0).
Proof.
  destruct (lock_discipline 1 (after 1 (submit_two ++ worker_fetch 0)) (Work 0)
              (after 1 (submit_two ++ worker_round 0))) as [H _].
  - apply reachable_after. vm_compute. eauto.
  - vm_compute. reflexivity.
  - destruct (H 0 0 []) as (_ & _ & H1 & H2); [vm_compute; reflexivity|]. by split.
Defined.

(** ** The stop flag *)

(** C7.  The flag is false in a freshly constructed pool, and no step of
    any thread, hence no sequence of steps, takes it from true back to
    false. *)
Theorem stop_flag_monotone threads acts s s' :
  run acts s = Some s' ->
  stop (ThreadPool threads) = false /\ (stop s = true -> stop s' = true).
Proof. intros H. split; [done|]. by eapply stop_run. Qed.

Lemma stop_flag_monotone_witness :
  stop (ThreadPool 1) = false /\
  (stop (after 1 (submit_two ++ destructor_entry)) = true ->
   stop (after 1 scenario) = true).
Proof.
  apply (stop_flag_monotone 1 drain_one). vm_compute. reflexivity.
Defined.

(** ** How often a task runs *)

(** A pool built with no worker accepts a task, returns its future, and
    its destructor returns: the callable was never invoked.  This is the
    execution that the property [invoked exactly once for every
    successful submit] does not survive. *)
Lemma unserved_submit :
  let s := after 0 (enqueue_solo seven 0 None ++ destructor_entry ++ [Own]) in
  reachable 0 s /\ owner s = DDone /\
  calls s !! 0 = Some (CReturned (inr 0)) /\ invocations s 0 = 0.
Proof.
  split; [|vm_compute; repeat split]. apply reachable_after. vm_compute. eauto.
Qed.

(** C8, amended.  A work item is, at any moment, in exactly one place and
    there once: in the queue, in the hands of one worker, or among the
    tasks that have run; the items found there are the ones whose
    [emplace] was done.  So no callable is ever invoked twice, and a task
    leaves the queue before it runs and never returns to it.  When the
    pool has at least one worker and its destructor has returned, every
    task whose [enqueue] returned a future has been invoked exactly
    once. *)
Theorem at_most_once threads s :
  reachable threads s ->
  NoDup (runs (hist s) ++ inflight s ++ tasks s) /\
  (forall t, invocations s t <= 1) /\
  (forall t, t ∈ runs (hist s) ++ inflight s ++ tasks s <-> is_committed s t = true) /\
  (1 <= threads -> owner s = DDone ->
   forall j, calls s !! j = Some (CReturned (inr j)) -> invocations s j = 1).
Proof.
  intros Hr. pose proof (reachable_inv _ _ Hr) as Hinv.
  pose proof (NoDup_places s (inv_hist _ _ Hinv) (inv_commit _ _ Hinv)) as Hn.
  split_and!; [done| | |].
  - intros t. apply NoDup_app in Hn as [Hn _]. apply NoDup_ListNoDup in Hn.
    apply (proj1 (List.NoDup_count_occ Nat.eq_dec _) Hn).
  - intros t. rewrite <- (commit_enq s (inv_commit _ _ Hinv)).
    destruct (inv_hist _ _ Hinv) as [Hf Hp]. by rewrite Hf, Hp, (assoc_L (++)).
  - intros Hth Ho j Hj. by eapply served_once.
Qed.

Lemma at_most_once_witness :
  invocations (after 1 scenario) 0 = 1 /\ invocations (after 1 scenario) 1 = 1.
Proof.
  destruct (at_most_once 1 (after 1 scenario)) as (_ & _ & _ & H).
  - apply reachable_after. vm_compute. eauto.
  - split; apply H; first [lia | vm_compute; reflexivity].
Defined.

(** ** Construction *)



(** ** What the queue operations leave alone *)

(** C10.  A statement of [enqueue] changes neither the stop flag nor the
    number of workers; the only thing it may do to a worker is wake one
    that is blocked; and the queue is either untouched or, at l.150 and
    then on a pool that is not stopped, extended by this call's item at
    the tail, the items already there keeping their place.  A statement
    of a worker changes neither the flag nor another worker, and the queue
    is either untouched or, at l.101-102, shortened by its head, the rest
    keeping its order.  Both do happen: a call on a pool that is not
    stopped, run without interruption, appends its item and returns its
    future; a worker at l.101 finds a head and removes it. *)
Theorem queue_frame threads s :
  reachable threads s ->
  (forall a s' j,
      exec a s = Some s' -> actor a s = Caller j ->
      stop s' = stop s /\ length (workers s') = length (workers s) /\
      (forall i p, workers s !! i = Some p ->
         workers s' !! i = Some p \/ (p = WBlocked /\ workers s' !! i = Some WNotified)) /\
      (tasks s' = tasks s \/
       (tasks s' = tasks s ++ [j] /\ a = Call j /\ calls s !! j = Some CEmplace /\
        stop s = false))) /\
  (forall a s' i,
      exec a s = Some s' -> actor a s = Worker i ->
      stop s' = stop s /\ length (workers s') = length (workers s) /\
      (forall i', i' ≠ i -> workers s' !! i' = workers s !! i') /\
      (tasks s' = tasks s \/
       (exists t, tasks s = t :: tasks s' /\ a = Work i /\
                  workers s !! i = Some WTake /\
                  workers s' !! i = Some (WUnlock t)))) /\
  (forall f, stop s = false -> queue_mutex s = None ->
      let j := length (calls s) in
      let k := first_blocked (workers s) in
      exists s', run (enqueue_solo f j k) s = Some s' /\
        calls s' !! j = Some (CReturned (inr j)) /\
        tasks s' = tasks s ++ [j] /\ stop s' = stop s /\
        workers s' = woken k (workers s)) /\
  (forall i, workers s !! i = Some WTake ->
      exists t q s', tasks s = t :: q /\ exec (Work i) s = Some s' /\
        tasks s' = q /\ stop s' = stop s /\
        forall i', i' ≠ i -> workers s' !! i' = workers s !! i').
Proof.
  intros Hr. pose proof (reachable_inv _ _ Hr) as Hinv. split_and!.
  - intros a s' j H Ha.
    destruct (caller_frame _ _ _ _ H Ha) as (Hs & Hl & _ & _ & Hw & Hq).
    split_and!; try done. destruct Hq as [Hq|(Hq & -> & Hj)]; [by left|right].
    split_and!; try done. by eapply (cs_emplace s (inv_cs _ _ Hinv)); eauto.
  - intros a s' i H Ha.
    destruct (worker_frame _ _ _ _ H Ha) as (Hs & Hl & _ & _ & Hw & Hq).
    split_and!; try done. destruct Hq as [Hq|(t & Hq & -> & Hi)]; [by left|right].
    exists t. split_and!; try done.
    rewrite (work_take s i t (tasks s') Hi Hq) in H.
    apply (inj Some), (f_equal workers) in H. simpl in H. rewrite <- H.
    by eapply lookup_insert_same.
  - intros f Hs Hm j k.
    destruct (enqueue_succeeds s f Hs Hm) as (s' & ? & Hc & _ & ? & _ & ? & ? & _).
    exists s'. split_and!; try done; [|congruence]. rewrite Hc. apply lookup_snoc.
  - intros i Hi. pose proof (cs_take s (inv_cs _ _ Hinv) i Hi) as Hne.
    destruct (tasks s) as [|t q] eqn:Hq; [done|].
    eexists t, q, _. split; [done|]. split; [by apply work_take|]. simpl.
    split_and!; try done. intros i' Hi'. by apply list_lookup_insert_ne.
Qed.

Lemma queue_frame_witness :
  let s := after 2 [Work 0; Work 0] in
  exists s', run (enqueue_solo seven 0 (Some 0)) s = Some s' /\
    calls s' !! 0 = Some (CReturned (inr 0)) /\
    tasks s' = tasks s ++ [0] /\ stop s' = stop s /\
    workers s' = [WNotified; WLock].
Proof.
  intros s.
  destruct (queue_frame 2 s) as (_ & _ & H & _).
  - apply reachable_after. vm_compute. eauto.
  - apply (H seven); vm_compute; reflexivity.
Defined.

(** * Part IV: further properties of the pool *)

(** ** The queue is served *)

Lemma existsb_lookup {A} (f : A -> bool) (l : list A) :
  existsb f l = true <-> exists i x, l !! i = Some x /\ f x = true.
Proof.
  rewrite existsb_exists. split.
  - intros (x & Hx & Hf). apply list_elem_of_In, list_elem_of_lookup_1 in Hx as [i Hi]. eauto.
  - intros (i & x & Hi & Hf). exists x. split; [|done].
    apply list_elem_of_In. by eapply list_elem_of_lookup_2.
Qed.

Lemma existsb_insert {A} (f : A -> bool) (l : list A) i x y :
  l !! i = Some x -> (f x = true -> f y = true) ->
  existsb f l = true -> existsb f (<[i := y]> l) = true.
Proof.
  intros Hi Hf. rewrite !existsb_lookup. intros (k & z & Hk & Hz).
  destruct (decide (k = i)) as [->|Hne].
  - simplify_eq. exists i, y. split; [by eapply lookup_insert_same|auto].
  - exists k, z. by rewrite list_lookup_insert_ne.
Qed.

Lemma existsb_insert_true {A} (f : A -> bool) (l : list A) i x y :
  l !! i = Some x -> f y = true -> existsb f (<[i := y]> l) = true.
Proof.
  intros Hi Hf. apply existsb_lookup. exists i, y. split; [by eapply lookup_insert_same|done].
Qed.

Lemma attended_workers s : existsb awake (workers s) = true -> attended s = true.
Proof. unfold attended. by intros ->. Qed.

Lemma attended_calls s : existsb notifying (calls s) = true -> attended s = true.
Proof. unfold attended. intros ->. apply orb_true_r. Qed.


Lemma attended_iff s :
  attended s = true <->
  (exists i p, workers s !! i = Some p /\ awake p = true) \/
  (exists j p, calls s !! j = Some p /\ notifying p = true).
Proof. unfold attended. by rewrite orb_true_iff, !existsb_lookup. Qed.

Lemma awake_wake p : awake p = true -> awake (wake p) = true.
Proof. by destruct p. Qed.

Lemma wait_pred_false s : wait_pred s = false -> tasks s = [].
Proof.
  unfold wait_pred. intros [_ H]%orb_false_iff.
  apply negb_false_iff, bool_decide_eq_true in H. done.
Qed.

(** With the queue non-empty no worker has returned, so a worker that is
    not blocked is awake. *)
Lemma unblocked_awake threads s :
  1 <= threads -> inv threads s -> tasks s ≠ [] ->
  existsb blocked (workers s) = false ->
  exists i p, workers s !! i = Some p /\ awake p = true.
Proof.
  intros Hth Hinv Hq Hb.
  assert (0 < length (workers s)) as [p Hp]%lookup_lt_is_Some
    by (rewrite (inv_size _ _ Hinv); lia).
  exists 0, p. split; [done|]. destruct p; try done.
  - assert (existsb blocked (workers s) = true); [|congruence].
    apply existsb_lookup. by exists 0, WBlocked.
  - by destruct (inv_done _ _ Hinv 0 Hp).
  - by destruct (inv_fault _ _ Hinv 0).
Qed.

Lemma attended_inv_step threads a s s' :
  1 <= threads -> inv threads s -> attended_inv s -> exec a s = Some s' -> attended_inv s'.
Proof.
  intros Hth Hinv Ha H Hq.
  pose proof (inv_call_ok s (inv_hist _ _ Hinv) (inv_commit _ _ Hinv) (inv_heap _ _ Hinv)) as Hok.
  apply attended_iff. unfold attended_inv in Ha. rewrite attended_iff in Ha.
  step_cases H.
  all: try (right; eexists _, _; split; [by eapply lookup_insert_same|done]).
  all: try (left; eexists _, _; split; [by eapply lookup_insert_same|done]).
  all: try (by apply Ha).
  all: try (match goal with H : wait_pred _ = false |- _ =>
              apply wait_pred_false in H; congruence end).
  all: try (match goal with H : exit_test _ = true |- _ =>
              apply exit_test_true in H as [_ H]; congruence end).
  all: try (edestruct Hok as (pt & ? & Hpt); [done|]; simplify_eq;
            try rewrite (invoke_pending _ _ Hpt) in *; done).
  - destruct (Ha Hq) as [?|(j & p & Hj & Hp)]; [by left|right].
    exists j, p. split; [by apply lookup_app_l_Some|done].
  - destruct (Ha Hq) as [?|(j' & p & Hj & Hp)]; [by left|right].
    exists j', p. split; [|done].
    rewrite list_lookup_insert_ne; [done|]. intros ->. by simplify_eq.
  - destruct (Ha Hq) as [?|(j' & p & Hj & Hp)]; [by left|right].
    exists j', p. split; [|done].
    rewrite list_lookup_insert_ne; [done|]. intros ->. by simplify_eq.
  - destruct (Ha Hq) as [?|(j' & p & Hj & Hp)]; [by left|right].
    exists j', p. split; [|done].
    rewrite list_lookup_insert_ne; [done|]. intros ->. by simplify_eq.
  - left. by eapply unblocked_awake.
  - destruct (Ha Hq) as [(i & p & Hi & Hp)|?]; [left|by right].
    exists i, (wake p). split; [|by apply awake_wake].
    by rewrite list_lookup_fmap, Hi.
Qed.

Lemma attended_inv_init threads : attended_inv (ThreadPool threads).
Proof. by intros ?. Qed.

Lemma reachable_attended threads s :
  1 <= threads -> reachable threads s -> attended_inv s.
Proof.
  intros Hth. induction 1 as [|a s s' Hr IH H].
  - apply attended_inv_init.
  - eapply attended_inv_step; eauto using reachable_inv.
Qed.
Lemma existsb_false_lookup {A} (f : A -> bool) (l : list A) i x :
  existsb f l = false -> l !! i = Some x -> f x = false.
Proof.
  intros He Hi. destruct (f x) eqn:E; [|done].
  assert (existsb f l = true); [|congruence]. apply existsb_lookup. eauto.
Qed.

Lemma no_held_inflight (l : list wpc) :
  (forall i p, l !! i = Some p -> held p = []) -> l ≫= held = [].
Proof.
  induction l as [|p l IH]; intros H; [done|].
  rewrite bind_cons, IH; [|intros i q Hq; by apply (H (S i))].
  by rewrite (H 0 p).
Qed.

Lemma not_holding s th :
  mutex_inv s -> queue_mutex s = None -> holds s th = false.
Proof.
  intros Hm Hq. destruct (holds s th) eqn:E; [|done]. apply Hm in E. congruence.
Qed.

(** While the owner is outside the destructor and something is left to
    do, a worker or a call already made can run a statement that brings
    the work closer to its end. *)
Lemma serve_step threads s :
  1 <= threads -> inv threads s -> attended_inv s -> owner s = OLive ->
  tasks s ≠ [] \/ inflight s ≠ [] ->
  exists a s', is_service a = true /\ exec a s = Some s' /\
    backlog_live s' < backlog_live s.
Proof.
  intros Hth Hinv Hatt Hown Hwork.
  pose proof (inv_mutex _ _ Hinv) as Hm.
  pose proof (inv_call_ok s (inv_hist _ _ Hinv) (inv_commit _ _ Hinv) (inv_heap _ _ Hinv)) as Hok.
  destruct (queue_mutex s) as [[|i|j]|] eqn:Hq.
  - apply Hm in Hq. simpl in Hq. by rewrite Hown in Hq.
  - exists (Work i). pose proof Hq as Hh. apply Hm in Hh. simpl in Hh.
    destruct (workers s !! i) as [p|] eqn:Hi; [|done].
    pose proof (sum_list_insert wrank (workers s) i p) as Hsum.
    unfold backlog_live. simpl. unfold worker_step. rewrite Hi.
    destruct p; simplify_eq/=.
    + destruct (wait_pred s); eexists; (split_and!; [done..|]); simpl.
      * specialize (Hsum WCheck Hi). simpl in Hsum. lia.
      * specialize (Hsum WBlocked Hi). simpl in Hsum. lia.
    + destruct (exit_test s); eexists; (split_and!; [done..|]); simpl.
      * specialize (Hsum WDone Hi). simpl in Hsum. lia.
      * specialize (Hsum WTake Hi). simpl in Hsum. lia.
    + destruct (tasks s) as [|t q] eqn:Ht; eexists; (split_and!; [done..|]); simpl.
      * specialize (Hsum WFault Hi). simpl in Hsum. rewrite ?Ht. simpl. lia.
      * specialize (Hsum (WUnlock t) Hi). simpl in Hsum. rewrite ?Ht. simpl. lia.
    + eexists; (split_and!; [done..|]); simpl.
      specialize (Hsum (WCall t) Hi). simpl in Hsum. lia.
  - exists (Call j). pose proof Hq as Hh. apply Hm in Hh. simpl in Hh.
    destruct (calls s !! j) as [p|] eqn:Hj; [|done].
    pose proof (sum_list_insert crank_live (calls s) j p) as Hsum.
    unfold backlog_live. simpl. unfold enqueue_step. rewrite Hj.
    destruct p; simplify_eq/=.
    + destruct (stop s); eexists; (split_and!; [done..|]); simpl.
      * specialize (Hsum (CReturned (inl (runtime_error stopped_msg))) Hj).
        simpl in Hsum. lia.
      * specialize (Hsum CEmplace Hj). simpl in Hsum. lia.
    + eexists; (split_and!; [done..|]); simpl.
      specialize (Hsum CUnlock Hj). simpl in Hsum. rewrite length_app. simpl. lia.
    + eexists; (split_and!; [done..|]); simpl.
      specialize (Hsum CNotify Hj). simpl in Hsum. lia.
  - destruct (existsb at_notify (calls s)) eqn:En.
    { (* a call is about to notify *)
      apply existsb_lookup in En as (j & p & Hj & Hp). destruct p; try done.
      exists (Notify j (first_blocked (workers s))).
      pose proof (sum_list_insert crank_live (calls s) j CNotify (CReturned (inr j)) Hj) as Hsc.
      unfold backlog_live. simpl. unfold enqueue_notify, notify_one, wake_worker.
      rewrite Hj. destruct (first_blocked (workers s)) as [i|] eqn:Hfb.
      - pose proof (first_blocked_Some _ _ Hfb) as Hi. rewrite Hi. simpl.
        pose proof (sum_list_insert wrank (workers s) i WBlocked WNotified Hi) as Hsw.
        eexists; (split_and!; [done..|]); simpl. simpl in *. lia.
      - rewrite (first_blocked_None _ Hfb). simpl.
        eexists; (split_and!; [done..|]); simpl. simpl in *. lia. }
    destruct (existsb at_call (workers s)) eqn:Ec.
    { (* a worker is about to call its task *)
      apply existsb_lookup in Ec as (i & p & Hi & Hp). destruct p as [| | | | | |?|t| |]; try done.
      exists (Work i). destruct (Hok i t Hi) as (pt & Hpt & Hpend).
      eexists. split; [done|]. split; [by apply work_call|].
      pose proof (sum_list_insert wrank (workers s) i (WCall t) WLock Hi) as Hsw.
      unfold backlog_live. simpl. simpl in Hsw. lia. }
    (* otherwise the queue is not empty and a worker is awake *)
    assert (inflight s = []) as Hin.
    { apply no_held_inflight. intros i p Hi.
      pose proof (existsb_false_lookup _ _ _ _ Ec Hi) as Hc.
      pose proof (not_holding s (Worker i) Hm Hq) as Hh. simpl in Hh. rewrite Hi in Hh.
      by destruct p. }
    destruct Hwork as [Hne|Hne]; [|done].
    apply Hatt, attended_iff in Hne as [(i & p & Hi & Hp)|(j & p & Hj & Hp)].
    + pose proof (existsb_false_lookup _ _ _ _ Ec Hi) as Hc.
      pose proof (not_holding s (Worker i) Hm Hq) as Hh. simpl in Hh. rewrite Hi in Hh.
      exists (Work i). simpl. unfold worker_step, acquire. rewrite Hi, Hq.
      pose proof (sum_list_insert wrank (workers s) i p WWait Hi) as Hsw.
      destruct p; try done; simpl.
      all: eexists; (split_and!; [done..|]); unfold backlog_live; simpl; simpl in Hsw; lia.
    + pose proof (existsb_false_lookup _ _ _ _ En Hj) as Hc.
      pose proof (not_holding s (Caller j) Hm Hq) as Hh. simpl in Hh. rewrite Hj in Hh.
      by destruct p.
Qed.
Lemma service_owner a s s' :
  is_service a = true -> exec a s = Some s' -> owner s' = owner s.
Proof. intros Ha H. eapply owner_frame; [done|]. by destruct a. Qed.

Lemma service_stop a s s' :
  is_service a = true -> exec a s = Some s' -> stop s' = stop s.
Proof. intros Ha H. step_cases H; done. Qed.

Lemma serve_all threads n s :
  1 <= threads -> reachable threads s -> owner s = OLive -> backlog_live s <= n ->
  exists acts s', run acts s = Some s' /\
    Forall (fun a => is_service a = true) acts /\
    tasks s' = [] /\ inflight s' = [].
Proof.
  intros Hth. revert s. induction n as [|n IH]; intros s Hr Ho Hn.
  all: destruct (decide (tasks s = [] /\ inflight s = [])) as [[Hq Hi]|Hne];
    [exists [], s; split_and!; by try constructor|].
  all: destruct (serve_step threads s) as (a & s1 & Ha & Hex & Hlt);
    [done|by apply reachable_inv|by eapply reachable_attended|done| |].
  all: try (destruct (decide (tasks s = [])); [right|left]; naive_solver).
  - lia.
  - destruct (IH s1) as (acts & s' & Hrun & Hall & Hq & Hi).
    + by eapply reach_step.
    + by rewrite (service_owner _ _ _ Ha Hex).
    + lia.
    + exists (a :: acts), s'. split_and!; try done.
      * by eapply run_cons.
      * by constructor.
Qed.

Lemma hist_grows a s s' : exec a s = Some s' -> exists l, hist s' = hist s ++ l.
Proof.
  intros H. step_cases H; eauto; exists []; by rewrite app_nil_r.
Qed.

Lemma hist_grows_run acts s s' : run acts s = Some s' -> exists l, hist s' = hist s ++ l.
Proof.
  revert s. induction acts as [|a acts IH]; simpl; intros s Hr.
  - simplify_eq. exists []. by rewrite app_nil_r.
  - destruct (exec a s) as [s1|] eqn:E; [|done].
    destruct (hist_grows _ _ _ E) as [l1 H1]. destruct (IH _ Hr) as [l2 H2].
    exists (l1 ++ l2). by rewrite H2, H1, (assoc_L (++)).
Qed.

Lemma service_stop_run acts s s' :
  Forall (fun a => is_service a = true) acts -> run acts s = Some s' -> stop s' = stop s.
Proof.
  intros Hall. revert s. induction Hall as [|a acts Ha Hall IH]; simpl; intros s Hr.
  - by simplify_eq.
  - destruct (exec a s) as [s1|] eqn:E; [|done].
    rewrite (IH _ Hr). by eapply service_stop.
Qed.

Lemma service_owner_run acts s s' :
  Forall (fun a => is_service a = true) acts -> run acts s = Some s' -> owner s' = owner s.
Proof.
  intros Hall. revert s. induction Hall as [|a acts Ha Hall IH]; simpl; intros s Hr.
  - by simplify_eq.
  - destruct (exec a s) as [s1|] eqn:E; [|done].
    rewrite (IH _ Hr). by eapply service_owner.
Qed.

(** X1.  Without the destructor: in a pool with at least one worker
    whose owner has not entered the destructor, the workers and the calls
    of [enqueue] already under way can, by themselves (no new call, no
    spurious wake-up, no shutdown), empty the queue: there is such a
    schedule after which the pool is still alive, nothing is queued or
    held by a worker, and every item enqueued so far has been invoked
    exactly once. *)
Theorem tasks_get_served threads s :
  1 <= threads -> reachable threads s -> owner s = OLive ->
  exists acts s', run acts s = Some s' /\
    Forall (fun a => is_service a = true) acts /\
    owner s' = OLive /\ stop s' = false /\
    tasks s' = [] /\ inflight s' = [] /\
    (forall t, t ∈ enqs (hist s) -> invocations s' t = 1).
Proof.
  intros Hth Hr Ho.
  destruct (serve_all threads (backlog_live s) s) as (acts & s' & Hrun & Hall & Hq & Hi);
    [done..|].
  assert (reachable threads s') as Hr' by by eapply reachable_run.
  pose proof (reachable_inv _ _ Hr') as Hinv'.
  exists acts, s'. split_and!; try done.
  - by rewrite (service_owner_run _ _ _ Hall Hrun).
  - rewrite (service_stop_run _ _ _ Hall Hrun).
    rewrite (inv_stop _ _ (reachable_inv _ _ Hr)), Ho. done.
  - intros t Ht. destruct (hist_grows_run _ _ _ Hrun) as [l Hl].
    pose proof (NoDup_places s' (inv_hist _ _ Hinv') (inv_commit _ _ Hinv')) as Hn.
    rewrite Hq, Hi, !app_nil_r in Hn.
    apply count_occ_NoDup; [done|].
    destruct (inv_hist _ _ Hinv') as [Hf Hp]. rewrite Hq, app_nil_r in Hf.
    rewrite Hi, app_nil_r in Hp.
    rewrite <- Hp, <- Hf, Hl, enqs_app, elem_of_app. by left.
Qed.

Lemma tasks_get_served_witness :
  exists acts s', run acts (after 2 both_asleep) = Some s' /\
    Forall (fun a => is_service a = true) acts /\
    owner s' = OLive /\ stop s' = false /\
    tasks s' = [] /\ inflight s' = [] /\
    invocations s' 0 = 1 /\ invocations s' 1 = 1.
Proof.
  destruct (tasks_get_served 2 (after 2 both_asleep))
    as (acts & s' & H1 & H2 & H3 & H4 & H5 & H6 & H7).
  - lia.
  - apply reachable_after. vm_compute. eauto.
  - vm_compute. reflexivity.
  - exists acts, s'. split_and!; try done; apply H7; vm_compute.
    + apply list_elem_of_here.
    + apply list_elem_of_further, list_elem_of_here.
Defined.

(** ** Who writes the queue and the flag *)

(** X2.  At most one thread is inside a critical section (l.88-103,
    l.142-151, l.173-175), that thread is the holder of [queue_mutex], and
    a step that changes the queue or the stop flag is a step of the
    holder. *)
Theorem mutual_exclusion threads s :
  reachable threads s ->
  (forall t1 t2, holds s t1 = true -> holds s t2 = true -> t1 = t2) /\
  (forall th, holds s th = true <-> queue_mutex s = Some th) /\
  (forall a s', exec a s = Some s' ->
     tasks s' ≠ tasks s \/ stop s' ≠ stop s -> queue_mutex s = Some (actor a s)).
Proof.
  intros Hr. pose proof (inv_mutex _ _ (reachable_inv _ _ Hr)) as Hm.
  split_and!; [by apply holder_unique|done|].
  intros a s' H Hw.
  assert (holds s (actor a s) = true); [|by apply Hm].
  step_cases H; use_lookups; try done; by destruct Hw.
Qed.

Lemma mutual_exclusion_witness :
  let s := after 1 (enqueue_solo boom 0 None ++ [Work 0; Work 0; Work 0]) in
  queue_mutex s = Some (actor (Work 0) s).
Proof.
  intros s.
  destruct (mutual_exclusion 1 s) as (_ & _ & H).
  - apply reachable_after. vm_compute. eauto.
  - apply (H (Work 0) (after 1 (enqueue_solo boom 0 None ++ [Work 0; Work 0; Work 0; Work 0]))).
    + vm_compute. reflexivity.
    + left. vm_compute. discriminate.
Defined.

(** ** The queue is attended *)

(** X3.  No wake-up is lost: in a pool with at least one worker,
    whenever the queue is not empty some worker is not blocked in
    [condition.wait] (and has not returned), or some call of [enqueue] is
    between its [emplace] and its [notify_one]. *)
Theorem queue_is_attended threads s :
  1 <= threads -> reachable threads s -> tasks s ≠ [] ->
  (exists i p, workers s !! i = Some p /\ awake p = true) \/
  (exists j p, calls s !! j = Some p /\ notifying p = true).
Proof.
  intros Hth Hr Hq. apply attended_iff. by eapply reachable_attended.
Qed.

Lemma queue_is_attended_witness :
  let s := after 2 ([Work 0; Work 0; Work 1; Work 1; Submit boom; Call 0; Call 0; Call 0]) in
  (exists i p, workers s !! i = Some p /\ awake p = true) \/
  (exists j p, calls s !! j = Some p /\ notifying p = true).
Proof.
  intros s. apply (queue_is_attended 2 s).
  - lia.
  - apply reachable_after. vm_compute. eauto.
  - vm_compute. discriminate.
Defined.

(** ** Workers leave only at shutdown *)

(** X4.  The vector of workers keeps the size given to the
    constructor, and a worker that has returned from its loop did so on a
    stopped pool with an empty queue, after the owner entered the
    destructor: no worker leaves while the pool is alive. *)
Theorem workers_stay threads s :
  reachable threads s ->
  length (workers s) = threads /\
  (forall i, workers s !! i = Some WDone ->
     stop s = true /\ tasks s = [] /\ owner s ≠ OLive).
Proof.
  intros Hr. pose proof (reachable_inv _ _ Hr) as Hinv.
  split; [apply Hinv|]. intros i Hi.
  destruct (inv_done _ _ Hinv i Hi) as [Hs Hq]. split_and!; try done.
  intros Ho. rewrite (inv_stop _ _ Hinv), Ho in Hs. done.
Qed.

Lemma workers_stay_witness :
  length (workers (after 1 scenario)) = 1 /\
  stop (after 1 scenario) = true /\ tasks (after 1 scenario) = [] /\
  owner (after 1 scenario) ≠ OLive.
Proof.
  destruct (workers_stay 1 (after 1 scenario)) as [H1 H2].
  - apply reachable_after. vm_compute. eauto.
  - split; [done|]. apply (H2 0). vm_compute. reflexivity.
Defined.

(** ** No worker sleeps through the shutdown *)

(** X5.  Once the destructor is past [notify_all] (l.178) the flag is
    set and no worker is blocked in [condition.wait], and none blocks
    again: every [join] of l.182 waits for a worker that is running. *)
Theorem shutdown_wakes_all threads s :
  reachable threads s -> notified_all (owner s) = true ->
  stop s = true /\ forall i, workers s !! i ≠ Some WBlocked.
Proof.
  intros Hr Hn. pose proof (reachable_inv _ _ Hr) as Hinv. split.
  - rewrite (inv_stop _ _ Hinv). by destruct (owner s).
  - by apply (inv_wake _ _ Hinv).
Qed.

Lemma shutdown_wakes_all_witness :
  let s := after 2 ([Work 0; Work 0; Work 1; Work 1] ++ destructor_entry) in
  stop s = true /\ forall i, workers s !! i ≠ Some WBlocked.
Proof.
  intros s. apply (shutdown_wakes_all 2 s).
  - apply reachable_after. vm_compute. eauto.
  - vm_compute. reflexivity.
Defined.

(** ** Order of events *)

Lemma causal_nil : causal [].
Proof. intros h1 e h2 H. by destruct h1. Qed.

Lemma preceded_app h l e : preceded h e -> preceded (h ++ l) e.
Proof. destruct e; simpl; rewrite ?elem_of_app; auto. Qed.

Lemma causal_snoc h e : causal h -> preceded h e -> causal (h ++ [e]).
Proof.
  intros Hc He h1 e' h2 Heq.
  destruct h2 as [|e2 h2 _] using rev_ind.
  - apply app_inj_tail in Heq as [-> ->]. done.
  - rewrite app_comm_cons, (assoc_L (++)) in Heq.
    apply app_inj_tail in Heq as [-> _]. by eapply Hc.
Qed.

Lemma elem_of_enqs t h : t ∈ enqs h <-> Enq t ∈ h.
Proof.
  unfold enqs. rewrite list_elem_of_omap. split.
  - intros ([] & Hx & Heq); by simplify_eq/=.
  - intros Hx. by exists (Enq t).
Qed.

Lemma order_inv_init threads : order_inv (ThreadPool threads).
Proof.
  split; simpl; [apply causal_nil|].
  intros i p t Hi. apply lookup_replicate in Hi as [-> _]. by intros [|].
Qed.

Lemma order_inv_step a s s' :
  hist_inv s -> order_inv s -> exec a s = Some s' -> order_inv s'.
Proof.
  intros Hh [Hc Hf] H. split.
  - step_cases H; try done; apply causal_snoc; try done; simpl.
    + apply elem_of_enqs. rewrite (hist_fifo s Hh).
      match goal with H : tasks s = _ |- _ => rewrite H end.
      apply elem_of_app. right. apply list_elem_of_here.
    + eapply Hf; [done|]. by right.
  - intros i p t Hi Hp. step_cases H; inv_lookup; eauto.
    all: try (by destruct Hp).
    all: try (apply elem_of_app; left; by eauto).
    + destruct Hp as [Hp|Hp]; simplify_eq. apply elem_of_app. right. apply list_elem_of_here.
    + eapply Hf; [done|]. destruct Hp as [Hp|Hp]; simplify_eq. by left.
Qed.

Lemma reachable_order threads s : reachable threads s -> order_inv s.
Proof.
  induction 1 as [|a s s' Hr IH H]; [apply order_inv_init|].
  eapply order_inv_step; [|done..]. apply (reachable_inv _ _ Hr).
Qed.

(** X6.  In the history of any execution a dequeue of an item comes
    after the [emplace] of that item, and a run of an item by a worker
    comes after the dequeue of that item by the same worker, which in turn
    comes after its [emplace]. *)
Theorem run_after_fetch_after_submit threads s :
  reachable threads s ->
  (forall h1 i t h2, hist s = h1 ++ Deq i t :: h2 -> Enq t ∈ h1) /\
  (forall h1 i t w h2, hist s = h1 ++ Ran i t w :: h2 ->
     exists ha hb, h1 = ha ++ Deq i t :: hb /\ Enq t ∈ ha).
Proof.
  intros Hr. destruct (reachable_order _ _ Hr) as [Hc _]. split.
  - intros h1 i t h2 Heq. apply (Hc h1 (Deq i t) h2 Heq).
  - intros h1 i t w h2 Heq. pose proof (Hc h1 (Ran i t w) h2 Heq) as Hd. simpl in Hd.
    apply list_elem_of_split in Hd as (ha & hb & ->). exists ha, hb. split; [done|].
    rewrite <- (assoc_L (++)) in Heq. simpl in Heq. apply (Hc ha (Deq i t) _ Heq).
Qed.

Lemma run_after_fetch_after_submit_witness :
  exists ha hb, [Enq 0; Enq 1; Deq 0 0; Ran 0 0 []; Deq 0 1] = ha ++ Deq 0 1 :: hb /\
    Enq 1 ∈ ha.
Proof.
  destruct (run_after_fetch_after_submit 1 (after 1 scenario)) as [_ H].
  - apply reachable_after. vm_compute. eauto.
  - apply (H [Enq 0; Enq 1; Deq 0 0; Ran 0 0 []; Deq 0 1] 0 1 [] []).
    vm_compute. reflexivity.
Defined.

(** ** Calls that throw *)

Lemma thrown_inv_step a s s' :
  thrown_inv s -> exec a s = Some s' -> thrown_inv s'.
Proof.
  intros Ht H j e Hj. step_cases H; inv_lookup; eauto.
  all: try (destruct (Ht _ _ Hj) as [-> ?]; done).
  all: try done.
Qed.

Lemma reachable_thrown threads s : reachable threads s -> thrown_inv s.
Proof.
  induction 1 as [|a s s' Hr IH H]; [by intros j e ?|]. by eapply thrown_inv_step.
Qed.

Lemma count_occ_not_elem (l : list nat) t : t ∉ l -> count_occ Nat.eq_dec l t = 0.
Proof.
  intros Ht. apply List.count_occ_not_In. by rewrite <- list_elem_of_In.
Qed.

(** X7.  A call of [enqueue] that has thrown threw
    [runtime_error("enqueue on stopped ThreadPool")] on a stopped pool,
    and its task is nowhere: not in the queue, not held by a worker, and
    never invoked. *)
Theorem throwing_call threads s (j : nat) e :
  reachable threads s -> calls s !! j = Some (CReturned (inl e)) ->
  e = runtime_error stopped_msg /\ stop s = true /\
  (j ∉ tasks s) /\ (j ∉ inflight s) /\ invocations s j = 0.
Proof.
  intros Hr Hj. pose proof (reachable_inv _ _ Hr) as Hinv.
  destruct (reachable_thrown _ _ Hr j e Hj) as [-> Hs].
  assert (j ∉ enqs (hist s)) as Hne.
  { intros Hin. apply (commit_enq s (inv_commit _ _ Hinv)) in Hin.
    unfold is_committed in Hin. by rewrite Hj in Hin. }
  destruct (inv_hist _ _ Hinv) as [Hf Hp].
  assert (j ∉ runs (hist s)) as Hnr.
  { intros Hin. apply Hne. by apply runs_enqs. }
  split_and!; try done.
  - intros Hin. apply Hne. rewrite Hf. apply elem_of_app. by right.
  - intros Hin. apply Hne. by apply inflight_enqs.
  - by apply count_occ_not_elem.
Qed.

Lemma throwing_call_witness :
  let s := after 1 (submit_two ++ destructor_entry ++ [Submit seven; Call 2; Call 2]) in
  stop s = true /\ invocations s 2 = 0.
Proof.
  intros s.
  destruct (throwing_call 1 s 2 (runtime_error stopped_msg)) as (_ & H1 & _ & _ & H2).
  - apply reachable_after. vm_compute. eauto.
  - vm_compute. reflexivity.
  - by split.
Defined.

(** ** What a future delivers *)

Lemma heap_cell_step a s s' t pt :
  exec a s = Some s' -> heap s !! t = Some pt ->
  exists pt', heap s' !! t = Some pt' /\ fn pt' = fn pt /\
    (result pt ≠ Pending -> result pt' = result pt).
Proof.
  intros H Ht. step_cases H; eauto.
  - exists pt. split; [by apply lookup_app_l_Some|done].
  - match goal with H : invoke _ _ = Some _ |- _ =>
      apply invoke_Some in H as (Hpend & -> & ->) end.
    destruct (decide (t = t0)) as [->|Hne].
    + unfold work_item in *. assert (p = pt) as -> by congruence.
      eexists. split; [by eapply lookup_insert_same|]. split; [done|congruence].
    + exists pt. by rewrite list_lookup_insert_ne.
Qed.

Lemma heap_cell_run acts s s' t pt :
  run acts s = Some s' -> heap s !! t = Some pt ->
  exists pt', heap s' !! t = Some pt' /\ fn pt' = fn pt /\
    (result pt ≠ Pending -> result pt' = result pt).
Proof.
  revert s pt. induction acts as [|a acts IH]; simpl; intros s pt Hr Ht.
  - simplify_eq. eauto.
  - destruct (exec a s) as [s1|] eqn:E; [|done].
    destruct (heap_cell_step _ _ _ _ _ E Ht) as (pt1 & Ht1 & Hf1 & Hr1).
    destruct (IH _ _ Hr Ht1) as (pt' & Ht' & Hf' & Hr').
    exists pt'. split_and!; [done|congruence|].
    intros Hne. rewrite Hr'; [by apply Hr1|]. by rewrite Hr1.
Qed.

Lemma store_inj o1 o2 : store o1 = store o2 -> o1 = o2.
Proof. destruct o1, o2; intros; by simplify_eq/=. Qed.

(** X8.  In a pool with at least one worker, as long as a call of
    [enqueue] has not thrown: the packaged task it allocated keeps the
    callable it was given; if the call has returned a future, it is the
    one of its own task; the future is pending exactly as long as the
    task has not run; what it holds is the outcome of the callable in the
    world of its run; and once it holds an outcome it holds the same one
    for ever.  (A call that throws destroys its packaged task while
    unwinding, and a pool without workers destroys the ones still queued
    with its queue; the statement is about neither.) *)
Theorem future_delivers threads s f acts s' :
  1 <= threads -> reachable threads s -> run (Submit f :: acts) s = Some s' ->
  let j := length (calls s) in
  (forall e, calls s' !! j ≠ Some (CReturned (inl e))) ->
  exists pt, heap s' !! j = Some pt /\ fn pt = f /\
    (forall h, calls s' !! j = Some (CReturned (inr h)) -> h = j) /\
    (future_get pt = None <-> j ∉ runs (hist s')) /\
    (forall o, future_get pt = Some o ->
       exists i w, Ran i j w ∈ hist s' /\ o = (f w).2) /\
    (forall o more s'', future_get pt = Some o -> run more s' = Some s'' ->
       exists pt'', heap s'' !! j = Some pt'' /\ future_get pt'' = Some o).
Proof.
  intros _ Hr Hrun j _. simpl in Hrun.
  assert (reachable threads s') as Hr'
    by (eapply (reachable_run _ (Submit f :: acts)); [exact Hr|done]).
  pose proof (reachable_inv _ _ Hr') as Hinv'.
  assert (heap (enqueue_begin f s) !! j = Some (PackagedTask f Pending)) as Hj.
  { unfold enqueue_begin, j. simpl.
    rewrite <- (commit_heap s (inv_commit _ _ (reachable_inv _ _ Hr))). apply lookup_snoc. }
  destruct (heap_cell_run _ _ _ _ _ Hrun Hj) as (pt & Hpt & Hfn & _).
  exists pt. split_and!; try done.
  - intros h Hh. by apply (commit_ret s' (inv_commit _ _ Hinv') j h).
  - rewrite <- (heap_pending s' (inv_heap _ _ Hinv') j pt Hpt).
    unfold future_get. destruct (result pt); split; done.
  - intros o Ho. apply future_get_Some in Ho.
    destruct (heap_value s' (inv_heap _ _ Hinv') j pt Hpt) as (i & w & Hin & Hres).
    { rewrite Ho. apply store_not_pending. }
    exists i, w. split; [done|]. rewrite Ho, Hfn in Hres. by apply store_inj.
  - intros o more s'' Ho Hmore.
    destruct (heap_cell_run _ _ _ _ _ Hmore Hpt) as (pt'' & Hpt'' & _ & Hres).
    exists pt''. split; [done|]. apply future_get_Some in Ho.
    apply future_get_store. rewrite Hres; [done|]. rewrite Ho. apply store_not_pending.
Qed.

Lemma future_delivers_witness :
  exists pt, heap (after 1 scenario) !! 1 = Some pt /\ fn pt = push 5 /\
    future_get pt = Some (Returned 5%Z).
Proof.
  destruct (future_delivers 1 (after 1 (enqueue_solo boom 0 None)) (push 5)
              ([Call 1; Call 1; Call 1; Call 1; Notify 1 None] ++ destructor_entry ++ drain_one)
              (after 1 scenario)) as (pt & H1 & H2 & _ & _ & H3 & _).
  - lia.
  - apply reachable_after. vm_compute. eauto.
  - vm_compute. reflexivity.
  - intros e. vm_compute. discriminate.
  - exists pt. split_and!; [exact H1|exact H2|].
    vm_compute in H1. injection H1 as <-. reflexivity.
Defined.

(** ** From enqueue to the future *)

Lemma work_lock s i p :
  workers s !! i = Some p -> p = WLock \/ p = WNotified -> queue_mutex s = None ->
  exec (Work i) s = Some (set_wpc i WWait (set_mutex (Some (Worker i)) s)).
Proof. intros Hi [->| ->] Hm; simpl; unfold worker_step, acquire; by rewrite Hi, Hm. Qed.

Lemma work_wait s i :
  workers s !! i = Some WWait -> wait_pred s = true ->
  exec (Work i) s = Some (set_wpc i WCheck s).
Proof. intros Hi Hw. simpl. unfold worker_step. by rewrite Hi, Hw. Qed.

Lemma woken_ready (l : list wpc) i :
  l !! i = Some WLock \/ first_blocked l = Some i ->
  exists p, woken (first_blocked l) l !! i = Some p /\ (p = WLock \/ p = WNotified).
Proof.
  intros [Hi|Hi].
  - exists WLock. split; [|by left]. unfold woken.
    destruct (first_blocked l) as [k|] eqn:Hk; [|done].
    apply first_blocked_Some in Hk. rewrite list_lookup_insert_ne; [done|].
    intros ->. congruence.
  - exists WNotified. split; [|by right]. rewrite Hi. simpl.
    eapply lookup_insert_same. by apply first_blocked_Some.
Qed.

(** X9.  Round trip on an idle pool (not stopped, mutex free, queue
    empty): [enqueue(f)] run to its end, followed by one turn of the loop
    by a worker that is at the top of its loop or is the one the call
    wakes, returns the future of the new task, runs [f] once on the world
    as it was, leaves the outcome of [f] in that future and the world as
    [f] left it, and the pool is idle again. *)
Theorem submit_and_run threads s f i :
  reachable threads s -> stop s = false -> queue_mutex s = None -> tasks s = [] ->
  workers s !! i = Some WLock \/ first_blocked (workers s) = Some i ->
  let j := length (calls s) in
  exists s', run (enqueue_solo f j (first_blocked (workers s)) ++ worker_round i) s = Some s' /\
    calls s' !! j = Some (CReturned (inr j)) /\
    (exists pt, heap s' !! j = Some pt /\ future_get pt = Some (f (world s)).2) /\
    world s' = (f (world s)).1 /\
    hist s' = hist s ++ [Enq j; Deq i j; Ran i j (world s)] /\
    tasks s' = [] /\ queue_mutex s' = None /\ workers s' !! i = Some WLock.
Proof.
  intros Hr Hs Hm Hq Hi j.
  destruct (enqueue_succeeds s f Hs Hm)
    as (s1 & Hr1 & Hc1 & Hh1 & Hq1 & Hhist1 & Hw1 & Hs1 & Hm1 & _ & Hwo1).
  fold j in Hr1, Hc1, Hq1, Hhist1.
  destruct (woken_ready _ _ Hi) as (p & Hp & Hpp). rewrite <- Hw1 in Hp.
  assert (i < length (workers s1)) as Hlt by by eapply lookup_lt_Some.
  assert (heap s1 !! j = Some (PackagedTask f Pending)) as Hj.
  { rewrite Hh1. unfold j.
    rewrite <- (commit_heap s (inv_commit _ _ (reachable_inv _ _ Hr))). apply lookup_snoc. }
  rewrite Hq in Hq1. simpl in Hq1.
  set (s2 := set_wpc i WWait (set_mutex (Some (Worker i)) s1)).
  set (s3 := set_wpc i WCheck s2).
  set (s4 := set_wpc i WTake s3).
  set (s5 := set_wpc i (WUnlock j) (log (Deq i j) (set_tasks [] s4))).
  set (s6 := set_wpc i (WCall j) (release s5)).
  eexists. split.
  { eapply run_snoc; [exact Hr1|]. unfold worker_round, worker_fetch. simpl app.
    eapply run_cons; [by eapply work_lock|]. fold s2.
    eapply run_cons.
    { apply work_wait; [apply wpc_set; by simpl|].
      unfold wait_pred. simpl. rewrite Hq1, Hs1. done. }
    fold s3. eapply run_cons.
    { apply work_check; [apply wpc_set; simpl; by rewrite length_insert|].
      unfold exit_test. simpl. by rewrite Hs1. }
    fold s4. eapply run_cons.
    { eapply (work_take s4 i j []); [apply wpc_set; simpl; by rewrite !length_insert|].
      simpl. exact Hq1. }
    fold s5. eapply run_cons.
    { apply work_unlock. apply wpc_set. simpl. by rewrite !length_insert. }
    fold s6. eapply run_cons; [|done].
    eapply (work_call s6 i j (PackagedTask f Pending));
      [apply wpc_set; simpl; by rewrite !length_insert|exact Hj|done]. }
  simpl. split_and!; try done.
  - rewrite Hc1. apply lookup_snoc.
  - eexists. split; [eapply lookup_insert_same; exact Hj|].
    apply future_get_store. simpl. by rewrite Hwo1.
  - by rewrite Hwo1.
  - rewrite Hhist1, Hwo1. by rewrite <- !(assoc_L (++)).
  - apply list_lookup_insert_eq. by rewrite !length_insert.
Qed.

Lemma submit_and_run_witness :
  let s := after 2 [Work 0; Work 0] in
  exists s', run (enqueue_solo (push 5) 0 (Some 0) ++ worker_round 0) s = Some s' /\
    (exists pt, heap s' !! 0 = Some pt /\ future_get pt = Some (Returned 5%Z)) /\
    world s' = [5%Z].
Proof.
  intros s.
  destruct (submit_and_run 2 s (push 5) 0) as (s' & H1 & _ & H2 & H3 & _).
  - apply reachable_after. vm_compute. eauto.
  - vm_compute. reflexivity.
  - vm_compute. reflexivity.
  - vm_compute. reflexivity.
  - right. vm_compute. reflexivity.
  - exists s'. split_and!; [exact H1|exact H2|exact H3].
Defined.

(** ** What the destructor leaves alone *)

(** X10.  A statement of the destructor (l.169-183; the destructor of
    [MyThread] is the same text) changes neither the queue, nor a call of
    [enqueue], nor a packaged task, nor the world, nor the history; the
    only thing it does to a worker is to wake it at [notify_all]; the
    only change of the flag is its setting at l.174, with the mutex held;
    and the join loop goes through the workers in order, passing a worker
    only when that worker has returned. *)
Theorem destructor_frame threads s s' :
  reachable threads s -> exec Own s = Some s' ->
  tasks s' = tasks s /\ calls s' = calls s /\ heap s' = heap s /\
  world s' = world s /\ hist s' = hist s /\
  (forall i p, workers s !! i = Some p ->
     workers s' !! i = Some (if decide (owner s = DNotify) then wake p else p)) /\
  (stop s' = stop s \/
   (owner s = DStop /\ queue_mutex s = Some Owner /\ stop s = false /\ stop s' = true)) /\
  (forall k, owner s = DJoin k ->
     (forall i, i < k -> workers s !! i = Some WDone) /\
     ((owner s' = DJoin (S k) /\ workers s !! k = Some WDone) \/
      (owner s' = DDone /\ length (workers s) <= k))).
Proof.
  intros Hr H. pose proof (reachable_inv _ _ Hr) as Hinv.
  pose proof (inv_mutex _ _ Hinv Owner) as Hm.
  pose proof (inv_stop _ _ Hinv) as Hs. unfold stop_inv in Hs.
  simpl in H, Hm. unfold destructor_step, acquire in H.
  destruct (owner s) eqn:Ho; repeat case_match; simplify_eq/=.
  all: split_and!; try done; try (by left).
  all: try (intros i p Hi; by rewrite ?list_lookup_fmap, ?Hi).
  - right. split_and!; try done. by apply Hm.
  - intros k' ?. simplify_eq. split; [intros i Hi; by apply (join_some s (inv_join _ _ Hinv) k')|].
    by left.
  - intros k' ?. simplify_eq. split; [intros i Hi; by apply (join_some s (inv_join _ _ Hinv) k')|].
    right. split; [done|]. by apply lookup_ge_None.
Qed.

Lemma destructor_frame_witness :
  let s := after 2 ([Work 0; Work 0; Work 1; Work 1] ++ [Own; Own; Own]) in
  let s' := after 2 ([Work 0; Work 0; Work 1; Work 1] ++ destructor_entry) in
  tasks s' = tasks s /\ workers s' !! 0 = Some WNotified.
Proof.
  intros s s'.
  destruct (destructor_frame 2 s s') as (H1 & _ & _ & _ & _ & H2 & _).
  - apply reachable_after. vm_compute. eauto.
  - vm_compute. reflexivity.
  - split; [exact H1|]. apply (H2 0 WBlocked). vm_compute. reflexivity.
Defined.

(** * Part V: promise_future.cpp *)

Lemma pf_written_snoc t t' x out :
  PromiseFuture.written_by t (out ++ [(t', x)]) =
  PromiseFuture.written_by t out ++ (if decide (t' = t) then [x] else []).
Proof.
  unfold PromiseFuture.written_by. rewrite filter_app, fmap_app. f_equal.
  rewrite filter_cons. simpl. by destruct (decide (t' = t)).
Qed.

Lemma pf_report_first_nil : PromiseFuture.report_first [].
Proof. intros l1 x l2 H. by destruct l1. Qed.

Lemma pf_report_first_snoc out t x :
  PromiseFuture.report_first out ->
  (t = PromiseFuture.Main -> x ≠ PromiseFuture.consumer_wait ->
   PromiseFuture.report `prefix_of` PromiseFuture.written_by PromiseFuture.Producer out) ->
  PromiseFuture.report_first (out ++ [(t, x)]).
Proof.
  intros Ho Hx l1 y l2 Heq Hy.
  destruct l2 as [|e l2 _] using rev_ind.
  - apply app_inj_tail in Heq as [-> Heq]. simplify_eq. by apply Hx.
  - rewrite app_comm_cons, (assoc_L (++)) in Heq.
    apply app_inj_tail in Heq as [-> _]. by eapply Ho.
Qed.

Lemma pf_inv_start : PromiseFuture.inv PromiseFuture.start.
Proof. split; simpl; try done. apply pf_report_first_nil. Qed.

Lemma pf_report_prefix s :
  PromiseFuture.inv s -> PromiseFuture.promise s = Some 42%Z ->
  PromiseFuture.report `prefix_of`
    PromiseFuture.written_by PromiseFuture.Producer (PromiseFuture.cout s).
Proof.
  intros [_ _ _ _ Hpr _ _ Hpo _ _] Hp. rewrite Hpo. rewrite Hp in Hpr.
  destruct (PromiseFuture.producer s) as [[]|]; simplify_eq/=.
  - by exists [].
  - by exists [PromiseFuture.producer_bye].
Qed.

Ltac pf_print :=
  simpl; rewrite ?pf_written_snoc; simpl; rewrite ?app_nil_r.

Ltac pf_split :=
  split; pf_print; try done;
  try (split; [intros Hx; first [by simplify_eq/= | match goal with Hs : _ <-> _ |- _ => by apply Hs in Hx end]|done]);
  try (intros ? ?; by simplify_eq/=).

Lemma pf_inv_step t s s' :
  PromiseFuture.inv s -> PromiseFuture.step t s = Some s' -> PromiseFuture.inv s'.
Proof.
  intros Hinv H. pose proof (pf_report_prefix s Hinv) as Hrep.
  destruct Hinv as [Hst Hnf Hres Hfin Hpr Hgot Hcode Hpo Hmo Hord].
  destruct t; simpl in H;
    unfold PromiseFuture.main_step, PromiseFuture.producer_step in H.
  - assert (PromiseFuture.main s ≠ PromiseFuture.MSpawn ->
            PromiseFuture.producer s ≠ None) as Hsp.
    { intros Hm Hq. by apply Hst in Hq. }
    destruct (PromiseFuture.main s) eqn:Hm; simplify_eq/=.
    + destruct Hst as [_ Hst]. specialize (Hst eq_refl). rewrite Hst in *.
      pf_split.
    + pf_split.
      * by rewrite Hmo.
      * apply pf_report_first_snoc; done.
    + destruct (PromiseFuture.promise s) as [v|] eqn:Hp; simplify_eq/=.
      assert (v = 42%Z) as ->.
      { destruct (PromiseFuture.promise_set _); congruence. }
      pf_split. congruence.
    + specialize (Hfin _ eq_refl) as ->. specialize (Hgot eq_refl).
      pf_split.
      * by rewrite Hmo.
      * apply pf_report_first_snoc; [done|]. intros _ _. by apply Hrep.
    + specialize (Hfin _ eq_refl) as ->. specialize (Hgot eq_refl).
      pf_split.
      * by rewrite Hmo.
      * apply pf_report_first_snoc; [done|]. intros _ _. by apply Hrep.
    + specialize (Hfin _ eq_refl) as ->. specialize (Hgot eq_refl).
      pf_split.
      * by rewrite Hmo.
      * apply pf_report_first_snoc; [done|]. intros _ _. by apply Hrep.
    + destruct (PromiseFuture.producer s) as [[]|] eqn:Hq; simplify_eq/=.
      pf_split; rewrite ?Hq; try done.
  - assert (PromiseFuture.main s ≠ PromiseFuture.MSpawn) as Hsp.
    { intros Hm. apply Hst in Hm. by rewrite Hm in H. }
    assert (forall c, PromiseFuture.main s ≠ PromiseFuture.MReturn c) as Hret.
    { intros c Hm. apply Hcode in Hm as [_ Hm]. by rewrite Hm in H. }
    destruct (PromiseFuture.producer s) as [[]|] eqn:Hq; simplify_eq/=.
    all: try (specialize (Hres _ eq_refl) as ->).
    all: try (rewrite Hpr in H; simplify_eq/=).
    all: pf_split; rewrite ?Hpo; try done.
    all: try (by intros ? ?%Hret).
    all: try (apply pf_report_first_snoc; done).
Qed.

Lemma pf_inv_run ts s s' :
  PromiseFuture.inv s -> PromiseFuture.run ts s = Some s' -> PromiseFuture.inv s'.
Proof.
  revert s. induction ts as [|t ts IH]; intros s Hinv H; simpl in H.
  - by simplify_eq.
  - destruct (PromiseFuture.step t s) as [s1|] eqn:Hs; [|done].
    eapply IH; [|done]. by eapply pf_inv_step.
Qed.

Lemma pf_left_step t s s' :
  PromiseFuture.inv s -> PromiseFuture.step t s = Some s' ->
  PromiseFuture.left s = S (PromiseFuture.left s').
Proof.
  intros [Hst _ _ _ Hpr _ _ _ _ _] H. unfold PromiseFuture.left.
  destruct t; simpl in H;
    unfold PromiseFuture.main_step, PromiseFuture.producer_step in H.
  - destruct (PromiseFuture.main s) eqn:Hm; simplify_eq/=.
    + destruct Hst as [_ Hst]. rewrite (Hst eq_refl). simpl. lia.
    + lia.
    + destruct (PromiseFuture.promise s); simplify_eq/=. lia.
    + lia.
    + lia.
    + lia.
    + destruct (PromiseFuture.producer s) as [[]|] eqn:Hq; simplify_eq/=.
      rewrite Hq. simpl. lia.
  - destruct (PromiseFuture.producer s) as [[]|] eqn:Hq; simplify_eq/=; try lia.
    rewrite Hpr in H. simplify_eq/=. lia.
Qed.

Lemma pf_left_run ts s s' :
  PromiseFuture.inv s -> PromiseFuture.run ts s = Some s' ->
  PromiseFuture.left s = length ts + PromiseFuture.left s'.
Proof.
  revert s. induction ts as [|t ts IH]; intros s Hinv H; simpl in H.
  - by simplify_eq.
  - destruct (PromiseFuture.step t s) as [s1|] eqn:Hs; [|done].
    rewrite (pf_left_step _ _ _ Hinv Hs).
    rewrite (IH s1); [simpl; lia| by eapply pf_inv_step |done].
Qed.

Lemma pf_progress s :
  PromiseFuture.inv s -> PromiseFuture.left s ≠ 0 ->
  exists t s', PromiseFuture.step t s = Some s'.
Proof.
  intros [Hst Hnf _ _ Hpr Hgot Hcode _ _ _] Hl. unfold PromiseFuture.left in Hl.
  destruct (PromiseFuture.main s) eqn:Hm.
  - exists PromiseFuture.Main. simpl. unfold PromiseFuture.main_step. rewrite Hm. eauto.
  - exists PromiseFuture.Main. simpl. unfold PromiseFuture.main_step. rewrite Hm. eauto.
  - destruct (PromiseFuture.promise s) as [v|] eqn:Hp.
    + exists PromiseFuture.Main. simpl. unfold PromiseFuture.main_step.
      rewrite Hm, Hp. eauto.
    + exists PromiseFuture.Producer. simpl. unfold PromiseFuture.producer_step.
      rewrite Hp.
      destruct (PromiseFuture.producer s) as [[]|] eqn:Hq; simplify_eq/=; eauto.
      by destruct Hst as [Hst _]; specialize (Hst eq_refl).
  - exists PromiseFuture.Main. simpl. unfold PromiseFuture.main_step. rewrite Hm. eauto.
  - exists PromiseFuture.Main. simpl. unfold PromiseFuture.main_step. rewrite Hm. eauto.
  - exists PromiseFuture.Main. simpl. unfold PromiseFuture.main_step. rewrite Hm. eauto.
  - specialize (Hgot eq_refl).
    destruct (decide (PromiseFuture.producer s = Some PromiseFuture.PExit)) as [Hq|Hq].
    + exists PromiseFuture.Main. simpl. unfold PromiseFuture.main_step.
      rewrite Hm, Hq. eauto.
    + exists PromiseFuture.Producer. simpl. unfold PromiseFuture.producer_step.
      rewrite Hgot in Hpr.
      destruct (PromiseFuture.producer s) as [[]|]; simplify_eq/=; eauto.
  - destruct (Hcode _ eq_refl) as [_ Hq]. rewrite Hq in Hl. done.
Qed.

Lemma pf_left_zero s :
  PromiseFuture.inv s -> PromiseFuture.left s = 0 ->
  PromiseFuture.main s = PromiseFuture.MReturn 0.
Proof.
  intros Hinv Hl. unfold PromiseFuture.left in Hl.
  destruct (PromiseFuture.main s) eqn:Hm; simpl in Hl; try lia.
  destruct (PromiseFuture.inv_code _ Hinv _ Hm) as [-> _]. done.
Qed.

(** X11.  promise_future.cpp, every interleaving: [set_value] never
    throws, the value [get()] returns to [main] is 42, and when [main]
    returns it returns 0, the producer has left its lambda, the promise
    holds 42 and each thread has written all of its lines. *)
Theorem promise_delivers ts s :
  PromiseFuture.run ts PromiseFuture.start = Some s ->
  (PromiseFuture.producer s ≠ Some PromiseFuture.PFault) /\
  (forall v, PromiseFuture.main_value (PromiseFuture.main s) = Some v -> v = 42%Z) /\
  (forall c, PromiseFuture.main s = PromiseFuture.MReturn c ->
     c = 0%Z /\
     PromiseFuture.producer s = Some PromiseFuture.PExit /\
     PromiseFuture.promise s = Some 42%Z /\
     PromiseFuture.written_by PromiseFuture.Producer (PromiseFuture.cout s) =
       [PromiseFuture.producer_start; PromiseFuture.producer_report; "42";
        PromiseFuture.nl; PromiseFuture.producer_bye] /\
     PromiseFuture.written_by PromiseFuture.Main (PromiseFuture.cout s) =
       [PromiseFuture.consumer_wait; PromiseFuture.consumer_got; "42";
        PromiseFuture.nl]).
Proof.
  intros H. pose proof (pf_inv_run _ _ _ pf_inv_start H) as Hinv.
  split_and!.
  - apply Hinv.
  - apply Hinv.
  - intros c Hc. destruct (PromiseFuture.inv_code _ Hinv _ Hc) as [-> Hq].
    split_and!; [done|done| | |].
    + apply Hinv. by rewrite Hc.
    + by rewrite (PromiseFuture.inv_producer_out _ Hinv), Hq.
    + by rewrite (PromiseFuture.inv_main_out _ Hinv), Hc.
Qed.

Lemma promise_delivers_witness :
  exists s, PromiseFuture.run pf_schedule PromiseFuture.start = Some s /\
    PromiseFuture.main s = PromiseFuture.MReturn 0 /\
    PromiseFuture.promise s = Some 42%Z.
Proof.
  eexists. split; [reflexivity|]. split; [reflexivity|].
  eapply (promise_delivers pf_schedule); reflexivity.
Defined.

(** X12.  promise_future.cpp terminates: from the start every schedule
    of [n] steps leaves exactly [15 - n] steps to run, a state with steps
    left always has a thread that can take one ([get()] and [join()] never
    block for ever), and with none left [main] has returned 0. *)
Theorem program_terminates ts s :
  PromiseFuture.run ts PromiseFuture.start = Some s ->
  length ts + PromiseFuture.left s = 15 /\
  ((PromiseFuture.left s ≠ 0) -> exists t s', PromiseFuture.step t s = Some s') /\
  (PromiseFuture.left s = 0 -> PromiseFuture.main s = PromiseFuture.MReturn 0).
Proof.
  intros H. pose proof (pf_inv_run _ _ _ pf_inv_start H) as Hinv.
  split_and!.
  - by rewrite <-(pf_left_run _ _ _ pf_inv_start H).
  - by apply pf_progress.
  - by apply pf_left_zero.
Qed.

Lemma program_terminates_witness :
  exists s, PromiseFuture.run (take 9 pf_schedule) PromiseFuture.start = Some s /\
    PromiseFuture.left s = 6 /\
    exists t s', PromiseFuture.step t s = Some s'.
Proof.
  eexists. split; [reflexivity|]. split; [reflexivity|].
  eapply (program_terminates (take 9 pf_schedule)); [reflexivity|]. vm_compute. lia.
Defined.

(** X13.  promise_future.cpp, every interleaving: each thread's output
    appears in its program order, and whatever the consumer writes after
    its first line ("received result", the number, the newline) comes
    after the producer's complete report line. *)
Theorem report_precedes_result ts s :
  PromiseFuture.run ts PromiseFuture.start = Some s ->
  PromiseFuture.written_by PromiseFuture.Producer (PromiseFuture.cout s) =
    PromiseFuture.producer_out (PromiseFuture.producer s) /\
  PromiseFuture.written_by PromiseFuture.Main (PromiseFuture.cout s) =
    PromiseFuture.main_out (PromiseFuture.main s) /\
  (forall l1 x l2, PromiseFuture.cout s = l1 ++ (PromiseFuture.Main, x) :: l2 ->
     (x ≠ PromiseFuture.consumer_wait) ->
     PromiseFuture.report `prefix_of` PromiseFuture.written_by PromiseFuture.Producer l1).
Proof.
  intros H. pose proof (pf_inv_run _ _ _ pf_inv_start H) as Hinv.
  split_and!; apply Hinv.
Qed.

Lemma report_precedes_result_witness :
  exists s l1 l2, PromiseFuture.run pf_schedule PromiseFuture.start = Some s /\
    PromiseFuture.cout s = l1 ++ (PromiseFuture.Main, PromiseFuture.consumer_got) :: l2 /\
    PromiseFuture.report `prefix_of` PromiseFuture.written_by PromiseFuture.Producer l1.
Proof.
  eexists.
  exists [(PromiseFuture.Main, PromiseFuture.consumer_wait);
          (PromiseFuture.Producer, PromiseFuture.producer_start);
          (PromiseFuture.Producer, PromiseFuture.producer_report);
          (PromiseFuture.Producer, "42");
          (PromiseFuture.Producer, PromiseFuture.nl)].
  eexists.
  split; [reflexivity|]. split; [reflexivity|].
  eapply (report_precedes_result pf_schedule); [reflexivity|reflexivity|].
  discriminate.
Defined.
